(** * analizador_lexico: the scanner of a small C-like teaching language

    A shallow embedding of [src/analizador_lexico.py] (class [Lexer]) and the
    properties of its token stream.

    - A Python [str] is a sequence of Unicode code points: [list char] with
      [char := N].
    - The methods of [Lexer] mutate [self] and may raise: they are functions
      in the monad [M], which threads the [Lexer] record and an exception.
      The object survives a [raise], so the state is kept on that path too.
    - [str.isalpha] and [str.isdigit] belong to the Python runtime (the
      Unicode character database), not to this repository: the scanner is
      parameterised by them in [Section Scanner].
    - Every [while] loop is a [Fixpoint] on a gas counter; running out of gas
      is the explicit outcome [Diverge], and the theorems show that it does
      not happen with the gas that [tokens] provides. *)

From Stdlib Require Import String Ascii.
From Stdlib Require Import List NArith PeanoNat Bool Lia Sorted DecimalNat.
Import ListNotations.

(** ** Characters and text *)

Definition char := N.
Definition text := list char.

Definition NUL : char := 0%N.        (* "\0" *)
Definition TAB : char := 9%N.        (* "\t" *)
Definition LF : char := 10%N.        (* "\n" *)
Definition CR : char := 13%N.        (* "\r" *)
Definition SPACE : char := 32%N.     (* " " *)
Definition BANG : char := 33%N.      (* "!" *)
Definition DQUOTE : char := 34%N.    (* the double quote *)
Definition DOLLAR : char := 36%N.    (* "$" *)
Definition AMP : char := 38%N.       (* "&" *)
Definition LPAREN : char := 40%N.    (* "(" *)
Definition RPAREN : char := 41%N.    (* ")" *)
Definition STAR : char := 42%N.      (* "*" *)
Definition PLUS : char := 43%N.      (* "+" *)
Definition COMMA : char := 44%N.     (* "," *)
Definition MINUS : char := 45%N.     (* "-" *)
Definition DOT : char := 46%N.       (* "." *)
Definition SLASH : char := 47%N.     (* "/" *)
Definition SEMI : char := 59%N.      (* ";" *)
Definition LT : char := 60%N.        (* "<" *)
Definition EQUALS : char := 61%N.    (* "=" *)
Definition GT : char := 62%N.        (* ">" *)
Definition BACKSLASH : char := 92%N. (* "\\" *)
Definition UNDERSCORE : char := 95%N. (* "_" *)
Definition LBRACE : char := 123%N.   (* "{" *)
Definition PIPE : char := 124%N.     (* "|" *)
Definition RBRACE : char := 125%N.   (* "}" *)

(** [ch == c] on one-character strings. *)
Definition ceq (a b : char) : bool := N.eqb a b.
Infix "==" := ceq (at level 70, no associativity).

(** An ASCII literal as a Python string. *)
Definition str (s : string) : text := map N_of_ascii (list_ascii_of_string s).

Fixpoint text_eqb (a b : text) : bool :=
  match a, b with
  | [], [] => true
  | x :: a', y :: b' => (x == y) && text_eqb a' b'
  | _, _ => false
  end.

(** [s[a:b]] for [0 <= a], [0 <= b]: Python clamps a slice to the string. *)
Definition slice (s : text) (a b : nat) : text := firstn (b - a) (skipn a s).

(** ** The token table *)

Module TOKEN.
Definition identificador := 0.
Definition entero := 1.
Definition real := 2.
Definition cadena := 3.
Definition tipo := 4.         (* int, float, void *)
Definition opSuma := 5.       (* +, - *)
Definition opMul := 6.        (* *, / *)
Definition opRelac := 7.      (* <, <=, >, >= *)
Definition opOr := 8.         (* || *)
Definition opAnd := 9.        (* && *)
Definition opNot := 10.       (* ! *)
Definition opIgualdad := 11.  (* ==, != *)
Definition semi := 12.        (* ";" *)
Definition comma := 13.       (* "," *)
Definition lparen := 14.      (* "(" *)
Definition rparen := 15.      (* ")" *)
Definition lbrace := 16.      (* "{" *)
Definition rbrace := 17.      (* "}" *)
Definition asign := 18.       (* "=" *)
Definition if_ := 19.
Definition while := 20.
Definition return_ := 21.
Definition else_ := 22.
Definition eof := 23.         (* "$" *)
End TOKEN.

(** Reserved words: a dict from lexeme to token code. *)
Definition RESERVED_SINGLE : list (text * nat) :=
  [ (str "if", TOKEN.if_); (str "while", TOKEN.while);
    (str "return", TOKEN.return_); (str "else", TOKEN.else_) ].

(** Type words, all of token code [tipo]. *)
Definition RESERVED_TYPES : list text := [ str "int"; str "float"; str "void" ].

Fixpoint dict_get (d : list (text * nat)) (k : text) : option nat :=
  match d with
  | [] => None
  | (k', v) :: d' => if text_eqb k k' then Some v else dict_get d' k
  end.

Definition set_mem (s : list text) (k : text) : bool := existsb (text_eqb k) s.

Record Token := mkToken
  { tipo : nat; lexema : text; linea : nat; columna : nat }.

(** ** Errors *)

(** The messages of the five [raise LexerError(...)] sites. *)
Inductive Message :=
| ComentarioBloqueSinCerrar            (* "Comentario bloque sin cerrar" *)
| SeEsperabaDigito                     (* "Se esperaba al menos un digito despues del punto" *)
| CadenaSinCerrar                      (* "Cadena sin cerrar" *)
| SaltoDeLineaEnCadena                 (* "Salto de linea dentro de cadena" *)
| SimboloInesperado (ch : char).       (* "Simbolo inesperado: {ch}" *)

Inductive Exn :=
| LexerError (message : Message) (e_linea e_columna : nat)
| AssertionError.

(** ** The scanner object *)

Module Lexer.

Record t := mk
  { fuente : text; i : nat; linea : nat; columna : nat }.

(** [self.n = len(fuente)]: set once by [__init__], never assigned again. *)
Definition n (self : t) : nat := length (fuente self).

Definition init (fuente : text) : t :=
  {| fuente := fuente; i := 0; linea := 1; columna := 1 |}.

End Lexer.

Abbreviation Lexer := Lexer.t.

(** ** The monad of the methods *)

Inductive Res (A : Type) :=
| Ok (a : A) (self : Lexer)
| Raise (e : Exn) (self : Lexer)
| Diverge.
Arguments Ok {A} a self.
Arguments Raise {A} e self.
Arguments Diverge {A}.

Definition M (A : Type) := Lexer -> Res A.

Definition ret {A} (a : A) : M A := fun self => Ok a self.

Definition bind {A B} (m : M A) (k : A -> M B) : M B :=
  fun self =>
    match m self with
    | Ok a self' => k a self'
    | Raise e self' => Raise e self'
    | Diverge => Diverge
    end.

Definition this : M Lexer := fun self => Ok self self.
Definition raise {A} (e : Exn) : M A := fun self => Raise e self.
Definition diverge {A} : M A := fun _ => Diverge.

Declare Scope lexer_scope.
Delimit Scope lexer_scope with lexer.
Notation "x <- m ;; k" := (bind m (fun x => k))
  (at level 100, m at next level, right associativity) : lexer_scope.
Notation "m ;; k" := (bind m (fun _ => k))
  (at level 100, right associativity) : lexer_scope.
Open Scope lexer_scope.

(** ** Primitives *)

Definition _peek (self : Lexer) (k : nat) : char :=
  let j := Lexer.i self + k in
  if j <? Lexer.n self then nth j (Lexer.fuente self) NUL else NUL.

Definition _advance : M char := fun self =>
  let ch := _peek self 0 in
  let '(linea, columna) :=
    if ch == LF then (Lexer.linea self + 1, 1)
    else (Lexer.linea self, Lexer.columna self + 1) in
  Ok ch {| Lexer.fuente := Lexer.fuente self;
           Lexer.i := Lexer.i self + 1;
           Lexer.linea := linea;
           Lexer.columna := columna |}.

Definition _match (expected : char) : M bool :=
  self <- this ;;
  if _peek self 0 == expected then _advance ;; ret true else ret false.

(** [while p(self._peek()): self._advance()] *)
Fixpoint advance_while (p : char -> bool) (gas : nat) : M unit :=
  match gas with
  | O => diverge
  | S gas' =>
      self <- this ;;
      if p (_peek self 0) then _advance ;; advance_while p gas' else ret tt
  end.

(** ** The scanner *)

(** How one round of the loop of [tokens] ends: [continue], or [break]. *)
Inductive Ctl := Continue | Break.

(** How the generator [tokens] ends. *)
Inductive Ending :=
| Finished                 (* the generator returned, after [break] *)
| Raised (e : Exn)         (* an exception left the generator *)
| Unfinished.              (* the gas ran out *)

Section Scanner.

(** [c.isalpha()] and [c.isdigit()] of the Python runtime. *)
Variable isalpha : char -> bool.
Variable isdigit : char -> bool.

(** *** _skip_whitespace *)

(** [while self._peek() not in {"\n", "\0"}: self._advance()] *)
Definition skip_line_comment : nat -> M unit :=
  advance_while (fun c => negb ((c == LF) || (c == NUL))).

(** The inner [while True] of the block comment, after its opening. *)
Fixpoint skip_block_comment (gas : nat) : M unit :=
  match gas with
  | O => diverge
  | S gas' =>
      self <- this ;;
      if _peek self 0 == NUL
      then raise (LexerError ComentarioBloqueSinCerrar
                             (Lexer.linea self) (Lexer.columna self))
      else if (_peek self 0 == STAR) && (_peek self 1 == SLASH)
      then _advance ;; _advance ;; ret tt
      else _advance ;; skip_block_comment gas'
  end.

Fixpoint _skip_whitespace (gas : nat) : M unit :=
  match gas with
  | O => diverge
  | S gas' =>
      self <- this ;;
      let ch := _peek self 0 in
      if (ch == SPACE) || (ch == TAB) || (ch == CR) || (ch == LF)
      then _advance ;; _skip_whitespace gas'
      else if (ch == SLASH) && (_peek self 1 == SLASH)
      then skip_line_comment gas ;; _skip_whitespace gas'
      else if (ch == SLASH) && (_peek self 1 == STAR)
      then _advance ;; _advance ;;
           skip_block_comment gas ;; _skip_whitespace gas'
      else ret tt
  end.

(** *** _scan_ident_or_reserved *)

Definition is_letter (c : char) : bool := isalpha c || (c == UNDERSCORE).
Definition is_digit (c : char) : bool := isdigit c.

(** [while is_letter(self._peek()) or is_digit(self._peek()): self._advance()] *)
Definition ident_tail : nat -> M unit :=
  advance_while (fun c => is_letter c || is_digit c).

Definition _scan_ident_or_reserved (gas : nat) : M Token :=
  self <- this ;;
  let start_i := Lexer.i self in
  let start_line := Lexer.linea self in
  let start_col := Lexer.columna self in
  if negb (is_letter (_peek self 0)) then raise AssertionError
  else
    _advance ;;
    ident_tail gas ;;
    self <- this ;;
    let lex := slice (Lexer.fuente self) start_i (Lexer.i self) in
    match dict_get RESERVED_SINGLE lex with
    | Some code => ret (mkToken code lex start_line start_col)
    | None =>
        if set_mem RESERVED_TYPES lex
        then ret (mkToken TOKEN.tipo lex start_line start_col)
        else ret (mkToken TOKEN.identificador lex start_line start_col)
    end.

(** *** _scan_number *)

(** [while self._peek().isdigit(): self._advance()] *)
Definition digits : nat -> M unit := advance_while isdigit.

Definition _scan_number (gas : nat) : M Token :=
  self <- this ;;
  let start_i := Lexer.i self in
  let start_line := Lexer.linea self in
  let start_col := Lexer.columna self in
  digits gas ;;
  self <- this ;;
  if (_peek self 0 == DOT) && isdigit (_peek self 1) then
    _advance ;;
    self <- this ;;
    if negb (isdigit (_peek self 0))
    then raise (LexerError SeEsperabaDigito
                           (Lexer.linea self) (Lexer.columna self))
    else
      digits gas ;;
      self <- this ;;
      let lex := slice (Lexer.fuente self) start_i (Lexer.i self) in
      ret (mkToken TOKEN.real lex start_line start_col)
  else
    let lex := slice (Lexer.fuente self) start_i (Lexer.i self) in
    ret (mkToken TOKEN.entero lex start_line start_col).

(** *** _scan_string *)

(** The [while True] of [_scan_string], after the opening quote. *)
Fixpoint string_body (gas : nat) (start_i start_line start_col : nat)
  : M Token :=
  match gas with
  | O => diverge
  | S gas' =>
      self <- this ;;
      let ch := _peek self 0 in
      if ch == NUL
      then raise (LexerError CadenaSinCerrar start_line start_col)
      else if ch == LF
      then raise (LexerError SaltoDeLineaEnCadena
                             (Lexer.linea self) (Lexer.columna self))
      else if ch == DQUOTE then
        let lex := slice (Lexer.fuente self) start_i (Lexer.i self) in
        _advance ;;
        ret (mkToken TOKEN.cadena lex start_line start_col)
      else if ch == BACKSLASH then
        _advance ;;
        self <- this ;;
        (if negb (_peek self 0 == NUL) then _advance ;; ret tt else ret tt) ;;
        string_body gas' start_i start_line start_col
      else
        _advance ;;
        string_body gas' start_i start_line start_col
  end.

Definition _scan_string (gas : nat) : M Token :=
  self <- this ;;
  let start_line := Lexer.linea self in
  let start_col := Lexer.columna self in
  _advance ;;
  self <- this ;;
  let start_i := Lexer.i self in
  string_body gas start_i start_line start_col.

(** *** tokens *)

(** One round of the [while True] of [tokens], after [_skip_whitespace]:
    the token it yields and whether the loop goes on. *)
Definition scan_token (gas : nat) : M (Token * Ctl) :=
  self <- this ;;
  let ch := _peek self 0 in
  if ch == NUL then
    ret (mkToken TOKEN.eof (str "$") (Lexer.linea self) (Lexer.columna self),
         Break)
  else if isalpha ch || (ch == UNDERSCORE) then
    t <- _scan_ident_or_reserved gas ;; ret (t, Continue)
  else if isdigit ch then
    t <- _scan_number gas ;; ret (t, Continue)
  else if ch == DQUOTE then
    t <- _scan_string gas ;; ret (t, Continue)
  else
    let start_line := Lexer.linea self in
    let start_col := Lexer.columna self in
    if (ch == EQUALS) && (_peek self 1 == EQUALS) then
      _advance ;; _advance ;;
      ret (mkToken TOKEN.opIgualdad (str "==") start_line start_col, Continue)
    else if (ch == BANG) && (_peek self 1 == EQUALS) then
      _advance ;; _advance ;;
      ret (mkToken TOKEN.opIgualdad (str "!=") start_line start_col, Continue)
    else if (ch == LT) && (_peek self 1 == EQUALS) then
      _advance ;; _advance ;;
      ret (mkToken TOKEN.opRelac (str "<=") start_line start_col, Continue)
    else if (ch == GT) && (_peek self 1 == EQUALS) then
      _advance ;; _advance ;;
      ret (mkToken TOKEN.opRelac (str ">=") start_line start_col, Continue)
    else if (ch == AMP) && (_peek self 1 == AMP) then
      _advance ;; _advance ;;
      ret (mkToken TOKEN.opAnd (str "&&") start_line start_col, Continue)
    else if (ch == PIPE) && (_peek self 1 == PIPE) then
      _advance ;; _advance ;;
      ret (mkToken TOKEN.opOr (str "||") start_line start_col, Continue)
    else
      ch <- _advance ;;
      if (ch == PLUS) || (ch == MINUS) then
        ret (mkToken TOKEN.opSuma [ch] start_line start_col, Continue)
      else if (ch == STAR) || (ch == SLASH) then
        ret (mkToken TOKEN.opMul [ch] start_line start_col, Continue)
      else if (ch == LT) || (ch == GT) then
        ret (mkToken TOKEN.opRelac [ch] start_line start_col, Continue)
      else if ch == BANG then
        ret (mkToken TOKEN.opNot [ch] start_line start_col, Continue)
      else if ch == EQUALS then
        ret (mkToken TOKEN.asign [ch] start_line start_col, Continue)
      else if ch == SEMI then
        ret (mkToken TOKEN.semi [ch] start_line start_col, Continue)
      else if ch == COMMA then
        ret (mkToken TOKEN.comma [ch] start_line start_col, Continue)
      else if ch == LPAREN then
        ret (mkToken TOKEN.lparen [ch] start_line start_col, Continue)
      else if ch == RPAREN then
        ret (mkToken TOKEN.rparen [ch] start_line start_col, Continue)
      else if ch == LBRACE then
        ret (mkToken TOKEN.lbrace [ch] start_line start_col, Continue)
      else if ch == RBRACE then
        ret (mkToken TOKEN.rbrace [ch] start_line start_col, Continue)
      else
        raise (LexerError (SimboloInesperado ch) start_line start_col).

(** The body of the loop of [tokens]. *)
Definition next_token (gas : nat) : M (Token * Ctl) :=
  _skip_whitespace gas ;; scan_token gas.

(** The generator, run to its end: the tokens it yields in order, how it
    ends, and the scanner object it leaves. *)
Fixpoint tokens_loop (gas : nat) (self : Lexer)
  : list Token * Ending * Lexer :=
  match gas with
  | O => ([], Unfinished, self)
  | S gas' =>
      match next_token gas self with
      | Ok (t, Break) self' => ([t], Finished, self')
      | Ok (t, Continue) self' =>
          let '(ts, e, final) := tokens_loop gas' self' in
          (t :: ts, e, final)
      | Raise e self' => ([], Raised e, self')
      | Diverge => ([], Unfinished, self)
      end
  end.

(** [Lexer(fuente).tokens()], consumed to its end. *)
Definition run (fuente : text) : list Token * Ending * Lexer :=
  tokens_loop (S (length fuente)) (Lexer.init fuente).

Definition tokens (fuente : text) : list Token * Ending :=
  fst (run fuente).

End Scanner.

(** ** The character classes on Latin-1 *)

(** [chr(c).isalpha()] for [c < 256] (general categories Lu, Ll, Lo there):
    A-Z, a-z, U+00AA, U+00B5, U+00BA, U+00C0-U+00D6, U+00D8-U+00F6,
    U+00F8-U+00FF.  Used for the closed examples, whose texts are Latin-1. *)
Definition latin1_isalpha (c : char) : bool :=
  ((65 <=? c) && (c <=? 90) || (97 <=? c) && (c <=? 122)
   || (c =? 170) || (c =? 181) || (c =? 186)
   || (192 <=? c) && (c <=? 214) || (216 <=? c) && (c <=? 246)
   || (248 <=? c) && (c <=? 255))%N.

(** [chr(c).isdigit()] for [c < 256]: 0-9, U+00B2, U+00B3, U+00B9. *)
Definition latin1_isdigit (c : char) : bool :=
  ((48 <=? c) && (c <=? 57) || (c =? 178) || (c =? 179) || (c =? 185))%N.

Definition tokens_latin1 : text -> list Token * Ending :=
  tokens latin1_isalpha latin1_isdigit.

(** ** Vocabulary of the specification *)

(** The longest prefix of [p] characters, and what follows it. *)
Fixpoint take_while (p : char -> bool) (l : text) : text :=
  match l with
  | [] => []
  | c :: l' => if p c then c :: take_while p l' else []
  end.

Fixpoint drop_while (p : char -> bool) (l : text) : text :=
  match l with
  | [] => []
  | c :: l' => if p c then drop_while p l' else l
  end.

(** Line and column after one more character. *)
Definition bump (lc : nat * nat) (ch : char) : nat * nat :=
  if ch == LF then (fst lc + 1, 1) else (fst lc, snd lc + 1).

(** Line and column of the cursor once the characters [done] are consumed. *)
Definition cursor_after (done : text) : nat * nat := fold_left bump done (1, 1).

(** The scanner object that has consumed [done] and has [rest] ahead. *)
Definition scanner_at (done rest : text) : Lexer :=
  {| Lexer.fuente := done ++ rest;
     Lexer.i := length done;
     Lexer.linea := fst (cursor_after done);
     Lexer.columna := snd (cursor_after done) |}.

(** The characters after the last newline of [s] (all of [s] without one). *)
Fixpoint last_line (s : text) : text :=
  match s with
  | [] => []
  | c :: s' => if existsb (ceq LF) s' then last_line s'
               else if c == LF then s' else c :: s'
  end.

(** The content of a string literal: plain characters and escaped pairs. *)
Inductive str_content : text -> Prop :=
| sc_nil : str_content []
| sc_plain c body :
    c <> NUL -> c <> LF -> c <> DQUOTE -> c <> BACKSLASH ->
    str_content body -> str_content (c :: body)
| sc_escape c body :
    c <> NUL -> str_content body -> str_content (BACKSLASH :: c :: body).

(** What follows the content of a string literal whose input runs out: the
    end of the text or a NUL, possibly after one backslash. *)
Inductive runs_out : text -> Prop :=
| ro_end tail : hd NUL tail = NUL -> runs_out tail
| ro_backslash tail : hd NUL tail = NUL -> runs_out (BACKSLASH :: tail).

(** What [string_body] may return on the text [rest], the content [body]
    being consumed already. *)
Definition string_outcome (pre body rest : text) (l c : nat) (r : Res Token)
  : Prop :=
  match r with
  | Ok t self' =>
      exists body' rest',
        rest = body' ++ DQUOTE :: rest' /\ str_content body'
        /\ self' = scanner_at (pre ++ (body ++ body') ++ [DQUOTE]) rest'
        /\ t = mkToken TOKEN.cadena (body ++ body') l c
  | Raise e self' =>
      (exists x rest', rest = x ++ rest'
                       /\ self' = scanner_at (pre ++ body ++ x) rest')
      /\ match e with
         | LexerError CadenaSinCerrar l' c' => l' = l /\ c' = c
         | LexerError SaltoDeLineaEnCadena l' c' =>
             l' = Lexer.linea self' /\ c' = Lexer.columna self'
         | _ => False
         end
  | Diverge => False
  end.

(** The text [w] goes past the opening of a block comment. *)
Definition past_opening (w : text) : Prop :=
  exists w0 w1, w = w0 ++ SLASH :: STAR :: w1.

(** What the comment and whitespace loops may return on [rest]; [opened]
    tells what is known of the text consumed before an error. *)
Definition skip_outcome (opened : text -> Prop) (done rest : text)
  (r : Res unit) : Prop :=
  match r with
  | Ok _ self' =>
      exists w rest', rest = w ++ rest' /\ self' = scanner_at (done ++ w) rest'
  | Raise e self' =>
      exists w rest',
        rest = w ++ rest' /\ self' = scanner_at (done ++ w) rest'
        /\ hd NUL rest' = NUL
        /\ e = LexerError ComentarioBloqueSinCerrar
                          (fst (cursor_after (done ++ w)))
                          (snd (cursor_after (done ++ w)))
        /\ opened w
  | Diverge => False
  end.

(** The characters of a line comment. *)
Definition not_eol (c : char) : bool := negb ((c == LF) || (c == NUL)).

(** What [_scan_string] may return at an opening quote [q]. *)
Definition scan_string_outcome (done : text) (q : char) (rest : text)
  (r : Res Token) : Prop :=
  match r with
  | Ok t self' =>
      exists body rest',
        rest = body ++ DQUOTE :: rest' /\ str_content body
        /\ self' = scanner_at (done ++ q :: body ++ [DQUOTE]) rest'
        /\ t = mkToken TOKEN.cadena body
                       (fst (cursor_after done)) (snd (cursor_after done))
  | Raise e self' =>
      (exists x rest', q :: rest = x ++ rest'
                       /\ self' = scanner_at (done ++ x) rest')
      /\ match e with
         | LexerError CadenaSinCerrar l' c' =>
             l' = fst (cursor_after done) /\ c' = snd (cursor_after done)
         | LexerError SaltoDeLineaEnCadena l' c' =>
             l' = Lexer.linea self' /\ c' = Lexer.columna self'
         | _ => False
         end
  | Diverge => False
  end.

(** The source text a token stands for: its lexeme, within its quotes for a
    string literal, and nothing for the end marker. *)
Definition token_source (t : Token) : text :=
  if tipo t =? TOKEN.cadena then DQUOTE :: lexema t ++ [DQUOTE]
  else if tipo t =? TOKEN.eof then []
  else lexema t.

(** What one round of [tokens] may return after the skipping. *)
Definition scan_outcome (done rest : text) (r : Res (Token * Ctl)) : Prop :=
  match r with
  | Ok (t, Continue) self' =>
      exists x rest',
        rest = x ++ rest' /\ x <> []
        /\ self' = scanner_at (done ++ x) rest'
        /\ token_source t = x
        /\ linea t = fst (cursor_after done)
        /\ columna t = snd (cursor_after done)
        /\ tipo t <> TOKEN.eof
  | Ok (t, Break) self' =>
      self' = scanner_at done rest /\ hd NUL rest = NUL
      /\ t = mkToken TOKEN.eof (str "$")
                     (fst (cursor_after done)) (snd (cursor_after done))
  | Raise e self' =>
      exists x rest', rest = x ++ rest' /\ self' = scanner_at (done ++ x) rest'
  | Diverge => False
  end.

(** *** The run of the generator, with what it skipped *)
Inductive Piece :=
| Skipped (s : text)     (* whitespace and comments before a token *)
| Scanned (t : Token).   (* a token the generator yielded *)

(** [tokens_loop] again, recording before each token the text that
    [_skip_whitespace] consumed: the source between the two cursors. *)
Section Trace.

Variable isalpha : char -> bool.
Variable isdigit : char -> bool.

Fixpoint trace_loop (gas : nat) (self : Lexer)
  : list Piece * Ending * Lexer :=
  match gas with
  | O => ([], Unfinished, self)
  | S gas' =>
      match _skip_whitespace gas self with
      | Ok _ self1 =>
          let skipped :=
            Skipped (slice (Lexer.fuente self) (Lexer.i self) (Lexer.i self1)) in
          match scan_token isalpha isdigit gas self1 with
          | Ok (t, Break) self2 => ([skipped; Scanned t], Finished, self2)
          | Ok (t, Continue) self2 =>
              let '(ps, e, final) := trace_loop gas' self2 in
              (skipped :: Scanned t :: ps, e, final)
          | Raise e self2 => ([skipped], Raised e, self2)
          | Diverge => ([skipped], Unfinished, self)
          end
      | Raise e self1 => ([], Raised e, self1)
      | Diverge => ([], Unfinished, self)
      end
  end.

Definition trace (fuente : text) : list Piece * Ending * Lexer :=
  trace_loop (S (length fuente)) (Lexer.init fuente).

End Trace.

Fixpoint yielded (ps : list Piece) : list Token :=
  match ps with
  | [] => []
  | Skipped _ :: ps' => yielded ps'
  | Scanned t :: ps' => t :: yielded ps'
  end.

(** The claim's reading of a piece: the skipped text, or the lexeme. *)
Definition piece_lexeme (p : Piece) : text :=
  match p with Skipped s => s | Scanned t => lexema t end.

(** The source text a piece stands for. *)
Definition piece_source (p : Piece) : text :=
  match p with Skipped s => s | Scanned t => token_source t end.

Definition eof_token (done : text) : Token :=
  mkToken TOKEN.eof (str "$") (fst (cursor_after done)) (snd (cursor_after done)).

(** The runs of the generator from the cursor between [done] and [rest]. *)
Inductive run_spec : text -> text -> list Piece -> Ending -> Lexer -> Prop :=
| run_finish done w rest' :
    hd NUL rest' = NUL ->
    run_spec done (w ++ rest')
             [Skipped w; Scanned (eof_token (done ++ w))] Finished
             (scanner_at (done ++ w) rest')
| run_token done w x rest' t ps e final :
    x <> [] -> token_source t = x -> tipo t <> TOKEN.eof ->
    linea t = fst (cursor_after (done ++ w)) ->
    columna t = snd (cursor_after (done ++ w)) ->
    run_spec (done ++ w ++ x) rest' ps e final ->
    run_spec done (w ++ x ++ rest') (Skipped w :: Scanned t :: ps) e final
| run_raise_skip done w rest' e :
    run_spec done (w ++ rest') [] (Raised e) (scanner_at (done ++ w) rest')
| run_raise_scan done w x rest' e :
    run_spec done (w ++ x ++ rest') [Skipped w] (Raised e)
             (scanner_at (done ++ w ++ x) rest').

(** Number of newlines of a text. *)
Definition newlines (s : text) : nat := count_occ N.eq_dec s LF.

(** What [_scan_number] returns at the cursor between [done] and [rest]. *)
Definition number_spec (isdigit : char -> bool) (done rest : text)
  : Res Token :=
  let ds := take_while isdigit rest in
  let r1 := drop_while isdigit rest in
  let l := fst (cursor_after done) in
  let c := snd (cursor_after done) in
  if (hd NUL r1 == DOT) && isdigit (nth 1 r1 NUL) then
    let fs := take_while isdigit (tl r1) in
    Ok (mkToken TOKEN.real (ds ++ DOT :: fs) l c)
       (scanner_at (done ++ ds ++ DOT :: fs) (drop_while isdigit (tl r1)))
  else
    Ok (mkToken TOKEN.entero ds l c) (scanner_at (done ++ ds) r1).

(** The token code of an identifier-shaped lexeme. *)
Definition classify (lex : text) : nat :=
  match dict_get RESERVED_SINGLE lex with
  | Some code => code
  | None => if set_mem RESERVED_TYPES lex then TOKEN.tipo
            else TOKEN.identificador
  end.

(** The characters that continue an identifier. *)
Definition ident_char (isalpha isdigit : char -> bool) (c : char) : bool :=
  is_letter isalpha c || is_digit isdigit c.

(** *** Readings of the specification that the scanner does not meet *)

(** A finished scan yields its end marker only with all the input consumed. *)
Definition eof_only_at_end (isalpha isdigit : char -> bool) (fuente : text)
  : Prop :=
  let '(ts, e, final) := run isalpha isdigit fuente in
  e = Finished ->
  (exists pre l c,
      ts = pre ++ [mkToken TOKEN.eof (str "$") l c]
      /\ Forall (fun t => tipo t <> TOKEN.eof) pre)
  /\ Lexer.i final = length fuente.

(** [a] is a prefix of [b]. *)
Fixpoint prefixb (a b : text) : bool :=
  match a, b with
  | [], _ => true
  | x :: a', y :: b' => (x == y) && prefixb a' b'
  | _ :: _, [] => false
  end.

(** Skipped text and lexemes, in order, rebuild the source as far as the
    scan went. *)
Definition lexemes_rebuild_source (isalpha isdigit : char -> bool)
  (fuente : text) : Prop :=
  let '(ps, e, final) := trace isalpha isdigit fuente in
  prefixb (concat (map piece_lexeme ps)) fuente = true.

(** The error of an unterminated block comment that opens right after
    [done] carries the position of its opening delimiter. *)
Definition comment_error_at_opening (done body : text) : Prop :=
  forall gas e self',
    _skip_whitespace gas (scanner_at done (SLASH :: STAR :: body)) = Raise e self' ->
    e = LexerError ComentarioBloqueSinCerrar
                   (fst (cursor_after done)) (snd (cursor_after done)).

(** A NUL that no double quote precedes - so one outside every string
    literal - makes the scan yield its end marker at the line and column of
    that NUL and stop. *)
Definition nul_outside_string_ends_scan (isalpha isdigit : char -> bool)
  (pre post : text) : Prop :=
  ~ In DQUOTE pre -> ~ In NUL pre ->
  exists ts,
    tokens isalpha isdigit (pre ++ NUL :: post)
    = (ts ++ [eof_token pre], Finished).

(** *** Gas and truncation *)

(** A method is stable when more gas does not change a result it has. *)
Definition stable {A} (f : nat -> M A) : Prop :=
  forall g g' self, g <= g' -> f g self <> Diverge -> f g' self = f g self.

(** Two scanner objects at the same cursor: [s2] on a text, [s1] on that
    text followed by a NUL and [post]. *)
Definition cut_view (post : text) (s1 s2 : Lexer) : Prop :=
  Lexer.fuente s1 = Lexer.fuente s2 ++ NUL :: post
  /\ Lexer.i s1 = Lexer.i s2
  /\ Lexer.linea s1 = Lexer.linea s2
  /\ Lexer.columna s1 = Lexer.columna s2
  /\ Lexer.i s2 <= length (Lexer.fuente s2).

Inductive cut_res (post : text) {A} : Res A -> Res A -> Prop :=
| cut_ok a s1 s2 : cut_view post s1 s2 -> cut_res post (Ok a s1) (Ok a s2)
| cut_raise e s1 s2 :
    cut_view post s1 s2 -> cut_res post (Raise e s1) (Raise e s2)
| cut_diverge : cut_res post Diverge Diverge.

(** The result is not the error of a dot without a digit after it. *)
Definition well_formed_real {A} (r : Res A) : Prop :=
  match r with
  | Raise (LexerError SeEsperabaDigito _ _) _ => False
  | _ => True
  end.

(** A comment body with no NUL and no closing delimiter. *)
Fixpoint unclosed (s : text) : bool :=
  match s with
  | [] => true
  | c :: s' =>
      negb (c == NUL) && negb ((c == STAR) && (hd NUL s' == SLASH))
      && unclosed s'
  end.

(** The characters that are a token of their own. *)
Definition single_operator (ch : char) : bool :=
  (ch == PLUS) || (ch == MINUS) || (ch == STAR) || (ch == SLASH)
  || (ch == LT) || (ch == GT) || (ch == BANG) || (ch == EQUALS)
  || (ch == SEMI) || (ch == COMMA) || (ch == LPAREN) || (ch == RPAREN)
  || (ch == LBRACE) || (ch == RBRACE).

(** Positions in line and column order. *)
Definition before (a b : nat * nat) : Prop :=
  fst a < fst b \/ (fst a = fst b /\ snd a < snd b).

(** ** Further vocabulary *)

(** The words that are no identifier. *)
Definition reserved_words : list text :=
  map fst RESERVED_SINGLE ++ RESERVED_TYPES.

(** The characters that [_skip_whitespace] consumes one by one. *)
Definition is_space (c : char) : bool :=
  (c == SPACE) || (c == TAB) || (c == CR) || (c == LF).

(** The scanner is at a character that [_skip_whitespace] leaves alone:
    no whitespace, and no slash that opens a comment. *)
Definition at_token_start (self : Lexer) : bool :=
  negb (is_space (_peek self 0))
  && negb ((_peek self 0 == SLASH)
           && ((_peek self 1 == SLASH) || (_peek self 1 == STAR))).

(** The same of a text ahead of the cursor. *)
Definition starts_token (rest : text) : bool :=
  negb (is_space (hd NUL rest))
  && negb ((hd NUL rest == SLASH)
           && ((hd NUL (tl rest) == SLASH) || (hd NUL (tl rest) == STAR))).

(** [skips w rest]: before [rest], the text [w] is made of whitespace, of
    line comments that run to the end of their line and of block comments
    closed by their first closing delimiter, and [rest] starts with none. *)
Inductive skips : text -> text -> Prop :=
| skips_nil rest : starts_token rest = true -> skips [] rest
| skips_space c w rest :
    is_space c = true -> skips w rest -> skips (c :: w) rest
| skips_line body w rest :
    Forall (fun c => not_eol c = true) body ->
    not_eol (hd NUL (w ++ rest)) = false ->
    skips w rest ->
    skips (SLASH :: SLASH :: body ++ w) rest
| skips_block body w rest :
    unclosed body = true ->
    skips w rest ->
    skips (SLASH :: STAR :: body ++ STAR :: SLASH :: w) rest.

(** The lexemes of each token code: what the text of a token of that code
    looks like. *)
Definition lexeme_of_code (isalpha isdigit : char -> bool) (code : nat)
  (s : text) : Prop :=
  match code with
  | 0 (* identificador *) =>
      s <> [] /\ is_letter isalpha (hd NUL s) = true
      /\ Forall (fun c => ident_char isalpha isdigit c = true) (tl s)
      /\ ~ In s reserved_words
  | 1 (* entero *) => s <> [] /\ Forall (fun c => isdigit c = true) s
  | 2 (* real *) =>
      exists a b,
        s = a ++ DOT :: b /\ a <> [] /\ b <> []
        /\ Forall (fun c => isdigit c = true) a
        /\ Forall (fun c => isdigit c = true) b
  | 3 (* cadena *) => str_content s
  | 4 (* tipo *) => In s RESERVED_TYPES
  | 5 (* opSuma *) => In s [str "+"; str "-"]
  | 6 (* opMul *) => In s [str "*"; str "/"]
  | 7 (* opRelac *) => In s [str "<"; str "<="; str ">"; str ">="]
  | 8 (* opOr *) => s = str "||"
  | 9 (* opAnd *) => s = str "&&"
  | 10 (* opNot *) => s = str "!"
  | 11 (* opIgualdad *) => In s [str "=="; str "!="]
  | 12 => s = str ";"
  | 13 => s = str ","
  | 14 => s = str "("
  | 15 => s = str ")"
  | 16 => s = str "{"
  | 17 => s = str "}"
  | 18 => s = str "="
  | 19 => s = str "if"
  | 20 => s = str "while"
  | 21 => s = str "return"
  | 22 => s = str "else"
  | 23 => s = str "$"
  | _ => False
  end.

Definition token_ok (isalpha isdigit : char -> bool) (t : Token) : Prop :=
  lexeme_of_code isalpha isdigit (tipo t) (lexema t).

(** The position a token records. *)
Definition position (t : Token) : nat * nat := (linea t, columna t).

(** [t1] starts before [t2] in line and column order. *)
Definition starts_before (t1 t2 : Token) : Prop :=
  before (position t1) (position t2).

(** The operators of two characters, with their codes, in the order in which
    [tokens] tries them. *)
Definition two_char_operators : list (char * char * nat) :=
  [ (EQUALS, EQUALS, TOKEN.opIgualdad); (BANG, EQUALS, TOKEN.opIgualdad);
    (LT, EQUALS, TOKEN.opRelac); (GT, EQUALS, TOKEN.opRelac);
    (AMP, AMP, TOKEN.opAnd); (PIPE, PIPE, TOKEN.opOr) ].

(** The operators and punctuation marks of one character, with their codes. *)
Definition one_char_operators : list (char * nat) :=
  [ (PLUS, TOKEN.opSuma); (MINUS, TOKEN.opSuma);
    (STAR, TOKEN.opMul); (SLASH, TOKEN.opMul);
    (LT, TOKEN.opRelac); (GT, TOKEN.opRelac);
    (BANG, TOKEN.opNot); (EQUALS, TOKEN.asign);
    (SEMI, TOKEN.semi); (COMMA, TOKEN.comma);
    (LPAREN, TOKEN.lparen); (RPAREN, TOKEN.rparen);
    (LBRACE, TOKEN.lbrace); (RBRACE, TOKEN.rbrace) ].

(** The characters that start an operator or are a punctuation mark. *)
Definition operator_chars : list char :=
  [PLUS; MINUS; STAR; SLASH; LT; GT; BANG; EQUALS; SEMI; COMMA;
   LPAREN; RPAREN; LBRACE; RBRACE; AMP; PIPE].

(** [c] followed by [d] starts an operator of two characters. *)
Definition two_char_start (c d : char) : bool :=
  existsb (fun '(a, b, _) => (c == a) && (d == b)) two_char_operators.

(** Where the error that ends a scan points.  [p] is the text of the pieces
    of the trace: what the scan consumed in the rounds it completed and, when
    the error is that of a token, the whitespace and comments before that
    token - so [p] ends where the token starts.  [x] is the text consumed
    after [p] and [r] the text ahead of the cursor when the error is raised.
    An unterminated string and an unexpected symbol are reported at the
    start of the token; a newline in a string and an unterminated comment at
    the cursor. *)
Definition error_at (p x r : text) (e : Exn) : Prop :=
  match e with
  | LexerError CadenaSinCerrar l c =>
      (l, c) = cursor_after p /\ hd NUL x = DQUOTE /\ hd NUL r = NUL
  | LexerError SaltoDeLineaEnCadena l c =>
      (l, c) = cursor_after (p ++ x) /\ hd NUL x = DQUOTE /\ hd NUL r = LF
  | LexerError (SimboloInesperado ch) l c =>
      (l, c) = cursor_after p /\ x = [ch]
  | LexerError ComentarioBloqueSinCerrar l c =>
      (l, c) = cursor_after (p ++ x) /\ past_opening x /\ hd NUL r = NUL
  | LexerError SeEsperabaDigito _ _ => False
  | AssertionError => False
  end.

(** ** The text of a lexical error

    [LexerError.__init__] hands [f"[L{linea}:C{columna}] {message}"] to
    [Exception]: that text is what [str(e)] gives and what the command line
    prints.  An [int] is formatted in decimal, without a sign when it is not
    negative and without leading zeros. *)

Fixpoint uint_text (d : Decimal.uint) : text :=
  match d with
  | Decimal.Nil => []
  | Decimal.D0 d => 48%N :: uint_text d
  | Decimal.D1 d => 49%N :: uint_text d
  | Decimal.D2 d => 50%N :: uint_text d
  | Decimal.D3 d => 51%N :: uint_text d
  | Decimal.D4 d => 52%N :: uint_text d
  | Decimal.D5 d => 53%N :: uint_text d
  | Decimal.D6 d => 54%N :: uint_text d
  | Decimal.D7 d => 55%N :: uint_text d
  | Decimal.D8 d => 56%N :: uint_text d
  | Decimal.D9 d => 57%N :: uint_text d
  end.

(** [str(n)] for an [int] [n >= 0]. *)
Definition decimal (n : nat) : text := uint_text (Nat.to_uint n).

(** The five messages of the module; 237 and 233 are the code points of the
    accented i and e. *)
Definition message_text (m : Message) : text :=
  match m with
  | ComentarioBloqueSinCerrar => str "Comentario bloque sin cerrar"
  | SeEsperabaDigito =>
      str "Se esperaba al menos un d" ++ 237%N :: str "gito despu"
        ++ 233%N :: str "s del punto"
  | CadenaSinCerrar => str "Cadena sin cerrar"
  | SaltoDeLineaEnCadena =>
      str "Salto de l" ++ 237%N :: str "nea dentro de cadena"
  | SimboloInesperado ch =>
      str "S" ++ 237%N :: str "mbolo inesperado: " ++ [ch]
  end.

(** [f"[L{linea}:C{columna}] {message}"] *)
Definition error_text (message : Message) (linea columna : nat) : text :=
  str "[L" ++ decimal linea ++ str ":C" ++ decimal columna ++ str "] "
    ++ message_text message.

Definition is_decimal_digit (c : char) : bool :=
  ((48 <=? c) && (c <=? 57))%N.

(** Reads a run of decimal digits: its value and the text after it. *)
Fixpoint read_decimal (acc : nat) (s : text) : nat * text :=
  match s with
  | c :: s' =>
      if is_decimal_digit c
      then read_decimal (10 * acc + N.to_nat (c - 48)) s'
      else (acc, s)
  | [] => (acc, s)
  end.

(** Reads back the line and the column of an error text; used to tell two
    error texts apart. *)
Definition read_position (s : text) : option (nat * nat) :=
  match s with
  | 91%N :: 76%N :: s1 =>
      match read_decimal 0 s1 with
      | (l, 58%N :: 67%N :: s2) =>
          match read_decimal 0 s2 with
          | (c, 93%N :: 32%N :: _) => Some (l, c)
          | _ => None
          end
      | _ => None
      end
  | _ => None
  end.

(** ** Basic facts *)

Lemma ceq_eq (a b : char) : (a == b) = true <-> a = b.
Proof. apply N.eqb_eq. Qed.

Lemma ceq_neq (a b : char) : (a == b) = false <-> a <> b.
Proof. apply N.eqb_neq. Qed.

Lemma ceq_refl (a : char) : (a == a) = true.
Proof. apply N.eqb_refl. Qed.

Lemma ceq_spec (a b : char) : reflect (a = b) (a == b).
Proof. apply N.eqb_spec. Qed.

Lemma take_drop_while p l : take_while p l ++ drop_while p l = l.
Proof.
  induction l as [|c l IH]; simpl; [reflexivity|].
  destruct (p c); simpl; [now rewrite IH | reflexivity].
Qed.

Lemma drop_while_head p l : forall c l', drop_while p l = c :: l' -> p c = false.
Proof.
  induction l as [|d l IH]; simpl; intros c l' H; [discriminate|].
  destruct (p d) eqn:E; [eauto | now inversion H; subst].
Qed.

Lemma take_while_all p l : Forall (fun c => p c = true) (take_while p l).
Proof.
  induction l as [|c l IH]; simpl; [constructor|].
  destruct (p c) eqn:E; now constructor.
Qed.

Lemma drop_while_length p l : length (drop_while p l) <= length l.
Proof.
  induction l as [|c l IH]; simpl; [lia|]. destruct (p c); simpl; lia.
Qed.

(** ** The scanner at a cursor *)

Lemma cursor_after_snoc done c :
  cursor_after (done ++ [c]) = bump (cursor_after done) c.
Proof. unfold cursor_after. now rewrite fold_left_app. Qed.

Lemma init_scanner_at src : Lexer.init src = scanner_at [] src.
Proof. reflexivity. Qed.

Lemma scanner_at_eq d1 r1 d2 r2 :
  d1 = d2 -> r1 = r2 -> scanner_at d1 r1 = scanner_at d2 r2.
Proof. now intros -> ->. Qed.

Lemma peek_at done rest k : _peek (scanner_at done rest) k = nth k rest NUL.
Proof.
  unfold _peek, Lexer.n, scanner_at; simpl.
  rewrite length_app.
  destruct (Nat.ltb_spec (length done + k) (length done + length rest)) as [H|H].
  - rewrite app_nth2 by lia. f_equal. lia.
  - symmetry. apply nth_overflow. lia.
Qed.

Lemma peek0_at done rest : _peek (scanner_at done rest) 0 = hd NUL rest.
Proof. rewrite peek_at. now destruct rest. Qed.

Lemma peek0_cons done c rest : _peek (scanner_at done (c :: rest)) 0 = c.
Proof. apply peek0_at. Qed.

Lemma peek0_nil done : _peek (scanner_at done []) 0 = NUL.
Proof. apply peek0_at. Qed.

Lemma peek1_cons done c rest :
  _peek (scanner_at done (c :: rest)) 1 = hd NUL rest.
Proof. rewrite peek_at. now destruct rest. Qed.

Lemma advance_at done c rest :
  _advance (scanner_at done (c :: rest)) = Ok c (scanner_at (done ++ [c]) rest).
Proof.
  unfold _advance. rewrite peek0_cons.
  unfold scanner_at. rewrite cursor_after_snoc. unfold bump.
  rewrite length_app, <- app_assoc. simpl.
  destruct (c == LF); reflexivity.
Qed.

Lemma firstn_prefix (a b : text) : firstn (length a) (a ++ b) = a.
Proof. induction a as [|x a IH]; simpl; [reflexivity | now rewrite IH]. Qed.

Lemma slice_at done x rest :
  slice (done ++ x ++ rest) (length done) (length (done ++ x)) = x.
Proof.
  unfold slice. rewrite length_app, skipn_app, skipn_all, Nat.sub_diag. simpl.
  replace (length done + length x - length done) with (length x + 0) by lia.
  now rewrite firstn_app_2, app_nil_r.
Qed.

(** Unfolding one round of a loop. *)
Lemma advance_while_step p gas done c rest :
  p c = true ->
  advance_while p (S gas) (scanner_at done (c :: rest))
  = advance_while p gas (scanner_at (done ++ [c]) rest).
Proof.
  intros H. simpl. unfold bind, this. rewrite peek0_cons, H.
  now rewrite advance_at.
Qed.

Lemma advance_while_stop p gas done rest :
  p (hd NUL rest) = false ->
  advance_while p (S gas) (scanner_at done rest) = Ok tt (scanner_at done rest).
Proof.
  intros H. simpl. unfold bind, this. rewrite peek0_at. now rewrite H.
Qed.

(** A [while p(peek): advance] loop consumes the longest prefix of [p]
    characters, provided the sentinel is not one of them. *)
Lemma advance_while_at p (Hnul : p NUL = false) :
  forall rest gas done,
    length rest < gas ->
    advance_while p gas (scanner_at done rest)
    = Ok tt (scanner_at (done ++ take_while p rest) (drop_while p rest)).
Proof.
  induction rest as [|c rest IH]; intros gas done Hgas;
    (destruct gas as [|gas]; [simpl in Hgas; lia|]).
  - rewrite advance_while_stop by assumption. simpl. now rewrite app_nil_r.
  - simpl take_while. simpl drop_while. destruct (p c) eqn:E.
    + rewrite advance_while_step by assumption.
      rewrite IH by (simpl in Hgas; lia).
      apply f_equal, scanner_at_eq; [now rewrite <- app_assoc | reflexivity].
    + rewrite advance_while_stop by assumption. now rewrite app_nil_r.
Qed.

Lemma slice_scanner_at done x rest :
  slice (Lexer.fuente (scanner_at (done ++ x) rest)) (length done)
        (Lexer.i (scanner_at (done ++ x) rest)) = x.
Proof. simpl. rewrite <- app_assoc. apply slice_at. Qed.

Ltac norm_at := rewrite <- ?app_assoc; cbn [app].

(** ** The loop of a string literal *)

Lemma str_content_app a b :
  str_content a -> str_content b -> str_content (a ++ b).
Proof.
  induction 1 as [|c a H1 H2 H3 H4 Ha IH|c a H1 Ha IH]; intros Hb; cbn [app].
  - assumption.
  - apply sc_plain; auto.
  - apply sc_escape; auto.
Qed.

Lemma string_outcome_shift pre body x rest l c r :
  str_content x ->
  string_outcome pre (body ++ x) rest l c r ->
  string_outcome pre body (x ++ rest) l c r.
Proof.
  intros Hx. destruct r as [t self'|e self'|]; simpl; [| |tauto].
  - intros (body' & rest' & -> & Hb & -> & ->).
    exists (x ++ body'), rest'. rewrite <- !app_assoc.
    repeat split. now apply str_content_app.
  - intros [(y & rest' & -> & ->) He]. split; [|exact He].
    exists (x ++ y), rest'. now rewrite <- !app_assoc.
Qed.

(** Rewrites the consumed text of the scanner state of the goal to [d]. *)
Ltac reshape_at d :=
  match goal with
  | |- context [scanner_at ?d0 ?r] =>
      replace (scanner_at d0 r) with (scanner_at d r)
        by (apply scanner_at_eq;
            [rewrite <- ?app_assoc; reflexivity | reflexivity])
  end.

Lemma string_body_sentinel gas si l c done rest :
  hd NUL rest = NUL ->
  string_body (S gas) si l c (scanner_at done rest)
  = Raise (LexerError CadenaSinCerrar l c) (scanner_at done rest).
Proof.
  intros H. cbn [string_body]. unfold bind, this. now rewrite peek0_at, H.
Qed.

Lemma string_body_at :
  forall gas pre body rest l c,
    length rest < gas ->
    string_outcome pre body rest l c
      (string_body gas (length pre) l c (scanner_at (pre ++ body) rest)).
Proof.
  induction gas as [|gas IH]; intros pre body rest l c Hgas; [lia|].
  destruct rest as [|ch rest].
  { rewrite string_body_sentinel by reflexivity.
    simpl. split; [|tauto]. exists [], []. now rewrite !app_nil_r. }
  simpl in Hgas.
  destruct (ceq_spec ch NUL) as [->|Hnul].
  { rewrite string_body_sentinel by reflexivity.
    simpl. split; [|tauto]. exists [], (NUL :: rest). now rewrite !app_nil_r. }
  cbn [string_body]. unfold bind, this. rewrite peek0_cons.
  replace (ch == NUL) with false by (symmetry; now apply ceq_neq).
  destruct (ceq_spec ch LF) as [->|Hlf].
  { simpl. split; [|tauto]. exists [], (LF :: rest). now rewrite !app_nil_r. }
  destruct (ceq_spec ch DQUOTE) as [->|Hdq].
  { rewrite advance_at. unfold ret. rewrite slice_scanner_at.
    exists [], rest. rewrite !app_nil_r. repeat split; [constructor|].
    apply scanner_at_eq; [now rewrite <- app_assoc | reflexivity]. }
  destruct (ceq_spec ch BACKSLASH) as [->|Hbs].
  - rewrite advance_at, peek0_at.
    destruct (ceq_spec (hd NUL rest) NUL) as [Hd|Hd]; cbn [negb]; unfold ret.
    + destruct gas as [|gas]; [lia|].
      rewrite string_body_sentinel by assumption.
      simpl. split; [|tauto]. exists [BACKSLASH], rest.
      split; [reflexivity|]. apply scanner_at_eq; [|reflexivity].
      now rewrite <- !app_assoc.
    + destruct rest as [|d rest]; [now contradiction Hd|]. cbn [hd] in Hd.
      rewrite advance_at.
      apply (string_outcome_shift pre body [BACKSLASH; d] rest).
      { constructor; [assumption | constructor]. }
      reshape_at (pre ++ body ++ [BACKSLASH; d]).
      apply IH. simpl in *; lia.
  - rewrite advance_at.
    apply (string_outcome_shift pre body [ch] rest).
    { constructor; (assumption || constructor). }
    reshape_at (pre ++ body ++ [ch]).
    apply IH. lia.
Qed.

(** Unfolding [string_body] on a plain character and on an escaped pair. *)
Lemma string_body_plain gas si l c done ch rest :
  ch <> NUL -> ch <> LF -> ch <> DQUOTE -> ch <> BACKSLASH ->
  string_body (S gas) si l c (scanner_at done (ch :: rest))
  = string_body gas si l c (scanner_at (done ++ [ch]) rest).
Proof.
  intros H1 H2 H3 H4. cbn [string_body]. unfold bind, this.
  rewrite peek0_cons.
  apply ceq_neq in H1, H2, H3, H4. rewrite H1, H2, H3, H4.
  now rewrite advance_at.
Qed.

Lemma string_body_escape gas si l c done ch rest :
  ch <> NUL ->
  string_body (S gas) si l c (scanner_at done (BACKSLASH :: ch :: rest))
  = string_body gas si l c (scanner_at (done ++ [BACKSLASH; ch]) rest).
Proof.
  intros H1. cbn [string_body]. unfold bind, this.
  rewrite peek0_cons. cbn [ceq N.eqb BACKSLASH NUL LF DQUOTE Pos.eqb].
  rewrite advance_at, peek0_cons.
  apply ceq_neq in H1. rewrite H1. cbn [negb]. rewrite advance_at. unfold ret.
  now rewrite <- app_assoc.
Qed.

Lemma string_body_closed body (Hbody : str_content body) :
  forall gas pre b0 rest l c,
    length body < gas ->
    string_body gas (length pre) l c
                (scanner_at (pre ++ b0) (body ++ DQUOTE :: rest))
    = Ok (mkToken TOKEN.cadena (b0 ++ body) l c)
         (scanner_at (pre ++ (b0 ++ body) ++ [DQUOTE]) rest).
Proof.
  induction Hbody as [|ch body H1 H2 H3 H4 Hb IH|ch body H1 Hb IH];
    intros gas pre b0 rest l c Hgas;
    (destruct gas as [|gas]; [simpl in Hgas; lia|]); simpl in Hgas.
  - cbn [app string_body]. unfold bind, this. rewrite peek0_cons.
    cbn [ceq N.eqb DQUOTE NUL LF Pos.eqb]. rewrite advance_at. unfold ret.
    rewrite slice_scanner_at, app_nil_r. now rewrite <- app_assoc.
  - cbn [app]. rewrite string_body_plain by assumption.
    reshape_at (pre ++ b0 ++ [ch]). rewrite IH by lia.
    now rewrite <- !app_assoc.
  - cbn [app]. rewrite string_body_escape by assumption.
    destruct gas as [|gas]; [lia|].
    reshape_at (pre ++ b0 ++ [BACKSLASH; ch]).
    rewrite (IH (S gas)) by lia.
    now rewrite <- !app_assoc.
Qed.

Lemma string_body_runs_out body (Hbody : str_content body) :
  forall tail gas pre b0 l c,
    runs_out tail ->
    length (body ++ tail) < gas ->
    exists self',
      string_body gas (length pre) l c (scanner_at (pre ++ b0) (body ++ tail))
      = Raise (LexerError CadenaSinCerrar l c) self'.
Proof.
  induction Hbody as [|ch body H1 H2 H3 H4 Hb IH|ch body H1 Hb IH];
    intros tail gas pre b0 l c Htail Hgas;
    (destruct gas as [|gas]; [simpl in Hgas; lia|]); simpl in Hgas.
  - cbn [app]. destruct Htail as [tail Hhd|tail Hhd].
    + rewrite string_body_sentinel by assumption. eauto.
    + cbn [string_body]. unfold bind, this. rewrite peek0_cons.
      cbn [ceq N.eqb BACKSLASH NUL LF DQUOTE Pos.eqb].
      rewrite advance_at, peek0_at, Hhd. cbn [ceq N.eqb NUL negb]. unfold ret.
      destruct gas as [|gas]; [simpl in Hgas; lia|].
      rewrite string_body_sentinel by assumption. eauto.
  - cbn [app]. rewrite string_body_plain by assumption.
    reshape_at (pre ++ b0 ++ [ch]). apply IH; [assumption | lia].
  - cbn [app]. rewrite string_body_escape by assumption.
    reshape_at (pre ++ b0 ++ [BACKSLASH; ch]).
    apply IH; [assumption | lia].
Qed.

(** ** Whitespace and comments *)

Lemma skip_outcome_shift (P Q : text -> Prop) done x rest r :
  (forall w, P w -> Q (x ++ w)) ->
  skip_outcome P (done ++ x) rest r -> skip_outcome Q done (x ++ rest) r.
Proof.
  intros HPQ. destruct r as [u self'|e self'|]; simpl; [| |tauto].
  - intros (w & rest' & -> & ->). exists (x ++ w), rest'.
    now rewrite <- !app_assoc.
  - intros (w & rest' & -> & -> & Hhd & -> & Hw). exists (x ++ w), rest'.
    rewrite <- !app_assoc. auto 6.
Qed.

Lemma skip_outcome_length P done rest u self' :
  skip_outcome P done rest (Ok u self') ->
  exists w rest', rest = w ++ rest' /\ self' = scanner_at (done ++ w) rest'
                  /\ length rest' <= length rest.
Proof.
  intros (w & rest' & -> & ->). exists w, rest'. rewrite length_app.
  repeat split. lia.
Qed.

Lemma past_opening_app x w : past_opening w -> past_opening (x ++ w).
Proof.
  intros (w0 & w1 & ->). exists (x ++ w0), w1. now rewrite <- app_assoc.
Qed.

Lemma past_opening_start w : past_opening ([SLASH; STAR] ++ w).
Proof. now exists [], w. Qed.

Lemma skip_block_comment_at :
  forall gas done rest,
    length rest < gas ->
    skip_outcome (fun _ => True) done rest
                 (skip_block_comment gas (scanner_at done rest)).
Proof.
  induction gas as [|gas IH]; intros done rest Hgas; [lia|].
  cbn [skip_block_comment]. unfold bind, this, raise.
  rewrite peek0_at.
  destruct rest as [|ch rest]; cbn [hd].
  - simpl. exists [], []. now rewrite !app_nil_r.
  - simpl in Hgas. rewrite peek1_cons.
    destruct (ceq_spec ch NUL) as [->|Hnul].
    { simpl. exists [], (NUL :: rest). now rewrite !app_nil_r. }
    destruct ((ch == STAR) && (hd NUL rest == SLASH)) eqn:Ec.
    + apply andb_prop in Ec as [E1 E2]. apply ceq_eq in E1, E2. subst ch.
      destruct rest as [|d rest]; [discriminate|]. cbn [hd] in E2. subst d.
      rewrite !advance_at. unfold ret. simpl.
      exists [STAR; SLASH], rest. now rewrite <- !app_assoc.
    + rewrite advance_at.
      apply (skip_outcome_shift (fun _ => True) _ done [ch] rest); [auto|].
      apply IH. lia.
Qed.

Lemma drop_while_shorter p c rest :
  p c = true -> length (drop_while p (c :: rest)) <= length rest.
Proof. intros H. simpl. rewrite H. apply drop_while_length. Qed.

Lemma skip_whitespace_at :
  forall gas done rest,
    length rest < gas ->
    skip_outcome past_opening done rest
                 (_skip_whitespace gas (scanner_at done rest)).
Proof.
  induction gas as [|gas IH]; intros done rest Hgas; [lia|].
  cbn [_skip_whitespace]. unfold bind, this.
  rewrite peek0_at.
  destruct rest as [|ch rest]; cbn [hd].
  - simpl. exists [], []. now rewrite !app_nil_r.
  - simpl in Hgas. rewrite peek1_cons.
    destruct ((ch == SPACE) || (ch == TAB) || (ch == CR) || (ch == LF)) eqn:Ews.
    { rewrite advance_at.
      apply (skip_outcome_shift past_opening _ done [ch] rest);
        [intros; now apply past_opening_app|].
      apply IH. lia. }
    destruct ((ch == SLASH) && (hd NUL rest == SLASH)) eqn:Elc.
    { apply andb_prop in Elc as [E1 E2]. apply ceq_eq in E1. subst ch.
      unfold skip_line_comment. fold not_eol.
      rewrite (advance_while_at not_eol eq_refl) by (simpl; lia).
      pose proof (drop_while_shorter not_eol SLASH rest eq_refl) as Hlen.
      pose proof (take_drop_while not_eol (SLASH :: rest)) as Hsplit.
      rewrite <- Hsplit at 1.
      apply (skip_outcome_shift past_opening);
        [intros; now apply past_opening_app|].
      apply IH. lia. }
    destruct ((ch == SLASH) && (hd NUL rest == STAR)) eqn:Ebc.
    { apply andb_prop in Ebc as [E1 E2]. apply ceq_eq in E1, E2. subst ch.
      destruct rest as [|d rest]; [discriminate|]. cbn [hd] in E2. subst d.
      rewrite !advance_at. simpl in Hgas.
      reshape_at (done ++ [SLASH; STAR]).
      pose proof (skip_block_comment_at (S gas) (done ++ [SLASH; STAR]) rest
                    ltac:(lia)) as Hb.
      destruct (skip_block_comment (S gas) _) as [u self1|e self1|];
        [| |exact Hb].
      - apply skip_outcome_length in Hb as (w & rest' & -> & -> & Hlen).
        apply (skip_outcome_shift past_opening _ done [SLASH; STAR]);
          [intros; now apply past_opening_app|].
        apply (skip_outcome_shift past_opening);
          [intros; now apply past_opening_app|].
        apply IH. lia.
      - apply (skip_outcome_shift (fun _ => True) _ done [SLASH; STAR]);
          [intros; apply past_opening_start | exact Hb]. }
    simpl. exists [], (ch :: rest). now rewrite !app_nil_r.
Qed.

Lemma scan_string_unfold gas done q rest :
  _scan_string gas (scanner_at done (q :: rest))
  = string_body gas (length (done ++ [q]))
                (fst (cursor_after done)) (snd (cursor_after done))
                (scanner_at ((done ++ [q]) ++ []) rest).
Proof.
  unfold _scan_string, bind, this. rewrite advance_at.
  now rewrite app_nil_r.
Qed.

Lemma scan_string_at gas done q rest :
  length rest < gas ->
  scan_string_outcome done q rest (_scan_string gas (scanner_at done (q :: rest))).
Proof.
  intros Hgas. rewrite scan_string_unfold.
  pose proof (string_body_at gas (done ++ [q]) [] rest
                (fst (cursor_after done)) (snd (cursor_after done)) Hgas) as H.
  destruct (string_body gas _ _ _ _) as [t self'|e self'|];
    unfold string_outcome, scan_string_outcome in *; [| |exact H].
  - destruct H as (body & rest' & -> & Hb & -> & ->). exists body, rest'.
    cbn [app]. repeat split; [assumption|]. apply scanner_at_eq; [|reflexivity].
    now rewrite <- !app_assoc.
  - destruct H as [(x & rest' & -> & ->) He]. split; [|exact He].
    exists (q :: x), rest'. split; [reflexivity|].
    apply scanner_at_eq; [|reflexivity]. now rewrite <- !app_assoc.
Qed.

(** ** Lines and columns *)

Lemma fold_bump s :
  forall l c,
    fold_left bump s (l, c)
    = (l + newlines s,
       if existsb (ceq LF) s then length (last_line s) + 1 else c + length s).
Proof.
  induction s as [|ch s IH]; intros l c.
  - unfold newlines. simpl. f_equal; lia.
  - cbn [fold_left]. unfold bump at 2. cbn [fst snd].
    unfold newlines. cbn [count_occ existsb last_line]. fold (newlines s).
    destruct (ceq_spec ch LF) as [->|Hne].
    + rewrite IH. rewrite ceq_refl. cbn [orb].
      destruct (N.eq_dec LF LF) as [_|]; [|contradiction].
      destruct (existsb (ceq LF) s); f_equal; simpl; lia.
    + rewrite IH.
      destruct (N.eq_dec ch LF) as [|_]; [contradiction|].
      replace (LF == ch) with false
        by (symmetry; apply ceq_neq; congruence).
      cbn [orb]. destruct (existsb (ceq LF) s); f_equal; simpl; lia.
Qed.

Lemma last_line_no_newline s : existsb (ceq LF) s = false -> last_line s = s.
Proof.
  destruct s as [|ch s]; [reflexivity|]. cbn [existsb last_line].
  intros H. apply orb_false_elim in H as [H1 H2]. rewrite H2.
  replace (ch == LF) with false; [reflexivity|].
  symmetry. apply ceq_neq. apply ceq_neq in H1. congruence.
Qed.

(** The cursor after [s]: one line per newline, and the column counts the
    characters since the last newline. *)
Lemma cursor_after_spec s :
  cursor_after s = (newlines s + 1, length (last_line s) + 1).
Proof.
  unfold cursor_after. rewrite fold_bump.
  destruct (existsb (ceq LF) s) eqn:E.
  - f_equal; lia.
  - rewrite last_line_no_newline by assumption. f_equal; lia.
Qed.

Lemma cursor_after_newline s : cursor_after (s ++ [LF]) = (newlines s + 2, 1).
Proof.
  rewrite cursor_after_snoc, cursor_after_spec. unfold bump. simpl. f_equal. lia.
Qed.

(** ** Runs *)

(** What a run tells about its end. *)
Lemma run_spec_end {done rest ps e final} :
  run_spec done rest ps e final ->
  e <> Unfinished
  /\ exists extra rest',
      rest = concat (map piece_source ps) ++ extra ++ rest'
      /\ final = scanner_at (done ++ concat (map piece_source ps) ++ extra) rest'
      /\ (e = Finished ->
          extra = [] /\ hd NUL rest' = NUL
          /\ exists pre,
              yielded ps
              = pre ++ [eof_token (done ++ concat (map piece_source ps))]
              /\ Forall (fun t => tipo t <> TOKEN.eof) pre).
Proof.
  induction 1 as [done w rest' Hhd
                 |done w x rest' t ps e final Hx Hsrc Hk Hl Hc Hrun IH
                 |done w rest' e|done w x rest' e].
  - split; [discriminate|]. exists [], rest'. cbn. rewrite !app_nil_r.
    split; [reflexivity|]. split; [reflexivity|]. intros _.
    repeat split; auto. exists []. split; [reflexivity | constructor].
  - destruct IH as (He & extra & rest2 & -> & -> & Hfin). split; [exact He|].
    exists extra, rest2. cbn [map concat piece_source yielded]. rewrite Hsrc.
    rewrite <- !app_assoc. split; [reflexivity|]. split; [reflexivity|].
    intros Hf. destruct (Hfin Hf) as (-> & Hhd & pre & Hy & Hpre).
    repeat split; auto. exists (t :: pre). rewrite Hy.
    rewrite <- !app_assoc. split; [reflexivity | now constructor].
  - split; [discriminate|]. exists w, rest'. cbn.
    split; [reflexivity|]. split; [reflexivity|]. discriminate.
  - split; [discriminate|]. exists x, rest'. cbn. rewrite !app_nil_r.
    split; [reflexivity|]. split; [reflexivity|]. discriminate.
Qed.

(** Where a run puts each token: at the cursor after the text before it. *)
Lemma run_spec_position {done rest ps e final} :
  run_spec done rest ps e final ->
  forall ps1 t ps2,
    ps = ps1 ++ Scanned t :: ps2 ->
    let before := concat (map piece_source ps1) in
    (exists after, rest = before ++ token_source t ++ after)
    /\ linea t = fst (cursor_after (done ++ before))
    /\ columna t = snd (cursor_after (done ++ before)).
Proof.
  induction 1 as [done w rest' Hhd
                 |done w x rest' t0 ps e final Hx Hsrc Hk Hl Hc Hrun IH
                 |done w rest' e|done w x rest' e];
    intros ps1 t ps2 Hps before; subst before.
  - destruct ps1 as [|p1 [|p2 [|p3 ps1]]]; try discriminate Hps.
    injection Hps as <- <- <-. cbn. rewrite app_nil_r.
    repeat split. now exists rest'.
  - destruct ps1 as [|p1 [|p2 ps1]]; try discriminate Hps.
    + injection Hps as <- <- <-. cbn. rewrite app_nil_r, Hsrc.
      repeat split; auto. now exists rest'.
    + injection Hps as <- <- ->. cbn [map concat piece_source]. rewrite Hsrc.
      destruct (IH ps1 t ps2 eq_refl) as ((after & ->) & Hl' & Hc').
      rewrite <- !app_assoc in *. repeat split; auto.
      exists after. now rewrite <- !app_assoc.
  - destruct ps1; discriminate.
  - destruct ps1 as [|p1 [|p2 ps1]]; discriminate.
Qed.

(** ** One round of the generator *)

Section ScannerFacts.

Variable isalpha : char -> bool.
Variable isdigit : char -> bool.

(** In Python, ["\0".isalpha()] and ["\0".isdigit()] are [False]. *)
Hypothesis isalpha_NUL : isalpha NUL = false.
Hypothesis isdigit_NUL : isdigit NUL = false.

Lemma scan_number_at done rest gas :
  length rest < gas ->
  _scan_number isdigit gas (scanner_at done rest) = number_spec isdigit done rest.
Proof.
  intros Hgas. unfold _scan_number, number_spec, digits, bind, this.
  rewrite (advance_while_at isdigit isdigit_NUL) by assumption.
  rewrite peek0_at, peek_at.
  pose proof (drop_while_length isdigit rest) as Hlen.
  destruct ((hd NUL (drop_while isdigit rest) == DOT)
            && isdigit (nth 1 (drop_while isdigit rest) NUL)) eqn:Ec.
  - apply andb_prop in Ec as [Ed En]. apply ceq_eq in Ed.
    destruct (drop_while isdigit rest) as [|d r2] eqn:Er1; [discriminate|].
    cbn [hd tl nth] in *. subst d.
    rewrite advance_at, peek_at, En. cbn [negb].
    rewrite (advance_while_at isdigit isdigit_NUL) by (simpl in Hlen; lia).
    norm_at.
    rewrite (slice_scanner_at done (take_while isdigit rest ++ DOT :: take_while isdigit r2)).
    reflexivity.
  - unfold ret.
    rewrite (slice_scanner_at done (take_while isdigit rest)). reflexivity.
Qed.

Lemma classify_not_eof lex : classify lex <> TOKEN.eof.
Proof.
  unfold classify, RESERVED_SINGLE. cbn [dict_get].
  repeat match goal with
         | |- context [if ?b then _ else _] => destruct b
         end; discriminate.
Qed.

Lemma ident_char_NUL : ident_char isalpha isdigit NUL = false.
Proof.
  unfold ident_char, is_letter, is_digit.
  now rewrite isalpha_NUL, isdigit_NUL.
Qed.

Lemma scan_ident_at done c rest gas :
  is_letter isalpha c = true ->
  length rest < gas ->
  _scan_ident_or_reserved isalpha isdigit gas (scanner_at done (c :: rest))
  = let lex := c :: take_while (ident_char isalpha isdigit) rest in
    Ok (mkToken (classify lex) lex
                (fst (cursor_after done)) (snd (cursor_after done)))
       (scanner_at (done ++ lex) (drop_while (ident_char isalpha isdigit) rest)).
Proof.
  intros Hc Hgas. unfold _scan_ident_or_reserved, ident_tail, bind, this.
  rewrite peek0_cons, Hc. cbn [negb]. rewrite advance_at.
  fold (ident_char isalpha isdigit).
  rewrite (advance_while_at (ident_char isalpha isdigit) ident_char_NUL) by assumption.
  norm_at.
  rewrite (slice_scanner_at done (c :: take_while (ident_char isalpha isdigit) rest)).
  cbv zeta. unfold classify.
  destruct (dict_get RESERVED_SINGLE _); [reflexivity|].
  destruct (set_mem RESERVED_TYPES _); reflexivity.
Qed.

Lemma classify_not_cadena lex : classify lex <> TOKEN.cadena.
Proof.
  unfold classify, RESERVED_SINGLE. cbn [dict_get].
  repeat match goal with
         | |- context [if ?b then _ else _] => destruct b
         end; discriminate.
Qed.

Lemma token_source_plain k lex l c :
  k <> TOKEN.cadena -> k <> TOKEN.eof -> token_source (mkToken k lex l c) = lex.
Proof.
  intros H1 H2. unfold token_source. cbn [tipo lexema].
  apply Nat.eqb_neq in H1, H2. now rewrite H1, H2.
Qed.

Lemma scan_token_at gas done rest :
  length rest < gas ->
  scan_outcome done rest (scan_token isalpha isdigit gas (scanner_at done rest)).
Proof.
  intros Hgas. unfold scan_token, bind, this. rewrite peek0_at.
  destruct rest as [|ch rest]; cbn [hd].
  { simpl. repeat split. }
  simpl in Hgas. rewrite peek1_cons.
  destruct (ceq_spec ch NUL) as [->|Hnul].
  { simpl. repeat split. }
  destruct (isalpha ch || (ch == UNDERSCORE)) eqn:Ea.
  { rewrite scan_ident_at by (assumption || lia). cbv zeta. unfold ret. simpl.
    exists (ch :: take_while (ident_char isalpha isdigit) rest), (drop_while (ident_char isalpha isdigit) rest).
    rewrite token_source_plain
      by (apply classify_not_cadena || apply classify_not_eof).
    cbn [app]. rewrite take_drop_while.
    repeat split; try discriminate. apply classify_not_eof. }
  destruct (isdigit ch) eqn:Ed.
  { rewrite scan_number_at by (simpl; lia). unfold number_spec.
    pose proof (take_drop_while isdigit (ch :: rest)) as Hsplit.
    assert (Hne : take_while isdigit (ch :: rest) <> [])
      by (simpl; rewrite Ed; discriminate).
    destruct ((hd NUL (drop_while isdigit (ch :: rest)) == DOT) && _) eqn:Ec.
    - apply andb_prop in Ec as [E1 _]. apply ceq_eq in E1.
      destruct (drop_while isdigit (ch :: rest)) as [|d r2] eqn:Er1;
        [discriminate|]. cbn [hd tl] in *. subst d. unfold ret. simpl.
      exists (take_while isdigit (ch :: rest) ++ DOT :: take_while isdigit r2),
        (drop_while isdigit r2).
      repeat split; try discriminate.
      + rewrite <- app_assoc. cbn [app]. rewrite take_drop_while.
        now rewrite Hsplit.
      + intros H. apply app_eq_nil in H as [H _]. contradiction.
    - unfold ret. simpl.
      exists (take_while isdigit (ch :: rest)), (drop_while isdigit (ch :: rest)).
      repeat split; try discriminate; auto. }
  destruct (ceq_spec ch DQUOTE) as [->|Hdq].
  { pose proof (@scan_string_at gas done DQUOTE rest ltac:(lia)) as H.
    destruct (_scan_string gas _) as [t self'|e self'|];
      unfold scan_string_outcome in H; simpl; [| |exact H].
    - destruct H as (body & rest' & -> & _ & -> & ->).
      exists (DQUOTE :: body ++ [DQUOTE]), rest'.
      repeat split; try discriminate.
      cbn [app]. now rewrite <- app_assoc.
    - destruct H as [(x & rest' & Hx & ->) _]. eauto. }
  (* operators of two characters *)
  repeat lazymatch goal with
  | |- context [if (ch == ?c) && (hd NUL rest == ?d) then _ else _] =>
      destruct ((ch == c) && (hd NUL rest == d)) eqn:E;
      [ apply andb_prop in E as [E1 E2]; apply ceq_eq in E1, E2; subst ch;
        destruct rest as [|d' rest]; [discriminate|]; cbn [hd] in E2; subst d';
        rewrite !advance_at; unfold ret; simpl;
        eexists [_; _], rest; rewrite <- !app_assoc;
        repeat split; discriminate
      | clear E ]
  end.
  (* a single character *)
  rewrite advance_at.
  repeat lazymatch goal with
  | |- context [if ?b then _ else _] =>
      destruct b;
      [ unfold ret; simpl; exists [ch], rest;
        repeat split; discriminate
      | ]
  end.
  unfold raise; simpl. exists [ch], rest. now split.
Qed.

Lemma tokens_loop_trace gas :
  forall self,
    tokens_loop isalpha isdigit gas self
    = let '(ps, e, final) := trace_loop isalpha isdigit gas self in
      (yielded ps, e, final).
Proof.
  induction gas as [|gas IH]; intros self; [reflexivity|].
  cbn [tokens_loop trace_loop]. unfold next_token, bind.
  destruct (_skip_whitespace (S gas) self) as [u self1|e self1|];
    [|reflexivity|reflexivity].
  destruct (scan_token isalpha isdigit (S gas) self1)
    as [[t [|]] self2|e self2|]; try reflexivity.
  rewrite IH. now destruct (trace_loop isalpha isdigit gas self2) as [[ps e] f].
Qed.

Lemma trace_loop_at gas :
  forall done rest,
    length rest < gas ->
    exists ps e final,
      trace_loop isalpha isdigit gas (scanner_at done rest) = (ps, e, final)
      /\ run_spec done rest ps e final.
Proof.
  induction gas as [|gas IH]; intros done rest Hgas; [lia|].
  cbn [trace_loop].
  pose proof (skip_whitespace_at (S gas) done rest Hgas) as Hs.
  destruct (_skip_whitespace (S gas) (scanner_at done rest))
    as [u self1|e self1|]; [| |contradiction].
  - apply skip_outcome_length in Hs as (w & rest1 & -> & -> & Hlen).
    rewrite length_app in Hgas.
    pose proof (@scan_token_at (S gas) (done ++ w) rest1 ltac:(lia)) as Ht.
    replace (slice _ _ _) with w
      by (symmetry; cbn [scanner_at Lexer.fuente Lexer.i]; apply slice_at).
    destruct (scan_token isalpha isdigit (S gas) (scanner_at (done ++ w) rest1))
      as [[t [|]] self2|e self2|]; [| | |contradiction].
    + destruct Ht as (x & rest2 & -> & Hx & -> & Hsrc & Hl & Hc & Hk).
      assert (Hx' : length x <> 0) by (destruct x; [contradiction|discriminate]).
      destruct (IH ((done ++ w) ++ x) rest2) as (ps & e & final & Heq & Hrun).
      { rewrite !length_app in Hlen. rewrite length_app in Hgas. lia. }
      rewrite Heq. do 3 eexists. split; [reflexivity|].
      rewrite <- app_assoc in Hrun. now apply run_token.
    + destruct Ht as (-> & Hhd & ->).
      do 3 eexists. split; [reflexivity|]. now apply run_finish.
    + destruct Ht as (x & rest2 & -> & ->).
      do 3 eexists. split; [reflexivity|].
      rewrite <- app_assoc. apply run_raise_scan.
  - destruct Hs as (w & rest1 & -> & -> & _).
    do 3 eexists. split; [reflexivity|]. apply run_raise_skip.
Qed.

Lemma trace_run fuente :
  exists ps e final,
    trace isalpha isdigit fuente = (ps, e, final)
    /\ run_spec [] fuente ps e final.
Proof. unfold trace. rewrite init_scanner_at. apply trace_loop_at. lia. Qed.

Lemma run_trace fuente :
  run isalpha isdigit fuente
  = let '(ps, e, final) := trace isalpha isdigit fuente in
    (yielded ps, e, final).
Proof. apply tokens_loop_trace. Qed.

End ScannerFacts.

(** ** The gas does not matter *)

Lemma stable_const {A} (m : M A) : stable (fun _ => m).
Proof. now intros g g' self _ _. Qed.

Lemma stable_bind {A B} (f : nat -> M A) (k : nat -> A -> M B) :
  stable f -> (forall a, stable (fun g => k g a)) ->
  stable (fun g => bind (f g) (k g)).
Proof.
  intros Hf Hk g g' self Hle Hd. unfold bind in *.
  destruct (f g self) as [a s1|e s1|] eqn:E.
  - rewrite (Hf g g' self Hle) by (rewrite E; discriminate). rewrite E.
    now apply Hk.
  - rewrite (Hf g g' self Hle) by (rewrite E; discriminate). now rewrite E.
  - contradiction.
Qed.

Lemma stable_if {A} (b : bool) (f1 f2 : nat -> M A) :
  stable f1 -> stable f2 -> stable (fun g => if b then f1 g else f2 g).
Proof. now destruct b. Qed.

Lemma stable_match {A B} (o : option B) (f1 : B -> nat -> M A) (f2 : nat -> M A) :
  (forall b, stable (f1 b)) -> stable f2 ->
  stable (fun g => match o with Some b => f1 b g | None => f2 g end).
Proof. destruct o; auto. Qed.

(** Proves the stability of a method made of stable parts. *)
Ltac stability :=
  repeat first
    [ apply stable_const
    | assumption
    | apply stable_bind; [|intros ?]
    | apply stable_if
    | apply stable_match; [intros ?|] ].

Lemma advance_ok self :
  exists self', _advance self = Ok (_peek self 0) self'.
Proof. unfold _advance. destruct (_peek self 0 == LF); eauto. Qed.

Lemma stable_advance_while p : stable (advance_while p).
Proof.
  intros g. induction g as [|g IH]; intros g' self Hle Hd;
    [now contradiction Hd|].
  destruct g' as [|g']; [lia|].
  cbn [advance_while] in *. unfold bind, this in *.
  destruct (p (_peek self 0)); [|reflexivity].
  destruct (advance_ok self) as [s1 E]. rewrite E in *.
  apply IH; [lia | assumption].
Qed.

Lemma stable_skip_block_comment : stable skip_block_comment.
Proof.
  intros g. induction g as [|g IH]; intros g' self Hle Hd;
    [now contradiction Hd|].
  destruct g' as [|g']; [lia|].
  cbn [skip_block_comment] in *. unfold bind, this in *.
  destruct (_peek self 0 == NUL); [reflexivity|].
  destruct ((_peek self 0 == STAR) && (_peek self 1 == SLASH)); [reflexivity|].
  destruct (advance_ok self) as [s1 E]. rewrite E in *.
  apply IH; [lia | assumption].
Qed.

Lemma stable_skip_whitespace : stable _skip_whitespace.
Proof.
  intros g. induction g as [|g IH]; intros g' self Hle Hd;
    [now contradiction Hd|].
  destruct g' as [|g']; [lia|].
  revert Hd. cbn [_skip_whitespace]. unfold bind, this.
  destruct ((_peek self 0 == SPACE) || (_peek self 0 == TAB)
            || (_peek self 0 == CR) || (_peek self 0 == LF)).
  { destruct (advance_ok self) as [s1 E]. rewrite E.
    intros Hd. apply IH; [lia | assumption]. }
  destruct ((_peek self 0 == SLASH) && (_peek self 1 == SLASH)).
  { unfold skip_line_comment. intros Hd.
    destruct (advance_while _ (S g) self) as [u s1|e s1|] eqn:E;
      [| |contradiction];
      rewrite (stable_advance_while _ (S g) (S g') self)
        by (lia || (rewrite E; discriminate)); rewrite E; [|reflexivity].
    apply IH; [lia | assumption]. }
  destruct ((_peek self 0 == SLASH) && (_peek self 1 == STAR)); [|reflexivity].
  destruct (advance_ok self) as [s1 E1]. rewrite E1.
  destruct (advance_ok s1) as [s2 E2]. rewrite E2. intros Hd.
  destruct (skip_block_comment (S g) s2) as [u s3|e s3|] eqn:E;
    [| |contradiction];
    rewrite (stable_skip_block_comment (S g) (S g') s2)
      by (lia || (rewrite E; discriminate)); rewrite E; [|reflexivity].
  apply IH; [lia | assumption].
Qed.

Lemma stable_string_body si l c :
  stable (fun g => string_body g si l c).
Proof.
  intros g. induction g as [|g IH]; intros g' self Hle Hd;
    [now contradiction Hd|].
  destruct g' as [|g']; [lia|].
  cbn [string_body] in *. unfold bind, this, ret in *.
  destruct (_peek self 0 == NUL); [reflexivity|].
  destruct (_peek self 0 == LF); [reflexivity|].
  destruct (_peek self 0 == DQUOTE); [reflexivity|].
  destruct (advance_ok self) as [s1 E1].
  destruct (_peek self 0 == BACKSLASH); rewrite E1 in *.
  - destruct (negb (_peek s1 0 == NUL)).
    + destruct (advance_ok s1) as [s2 E2]. rewrite E2 in *.
      apply IH; [lia | assumption].
    + apply IH; [lia | assumption].
  - apply IH; [lia | assumption].
Qed.

Section Stable.

Variable isalpha : char -> bool.
Variable isdigit : char -> bool.

Lemma stable_scan_ident : stable (_scan_ident_or_reserved isalpha isdigit).
Proof.
  unfold _scan_ident_or_reserved, ident_tail.
  pose proof (stable_advance_while (fun c => is_letter isalpha c || is_digit isdigit c)).
  stability.
Qed.

Lemma stable_scan_number : stable (_scan_number isdigit).
Proof.
  unfold _scan_number, digits.
  pose proof (stable_advance_while isdigit).
  stability.
Qed.

Lemma stable_scan_string : stable _scan_string.
Proof.
  unfold _scan_string. stability. apply stable_string_body.
Qed.

Lemma stable_scan_token : stable (scan_token isalpha isdigit).
Proof.
  unfold scan_token.
  pose proof stable_scan_ident. pose proof stable_scan_number.
  pose proof stable_scan_string.
  stability.
Qed.

Lemma stable_next_token : stable (next_token isalpha isdigit).
Proof.
  unfold next_token.
  pose proof stable_skip_whitespace. pose proof stable_scan_token.
  stability.
Qed.

Lemma stable_tokens_loop :
  forall g g' self,
    g <= g' ->
    snd (fst (tokens_loop isalpha isdigit g self)) <> Unfinished ->
    tokens_loop isalpha isdigit g' self = tokens_loop isalpha isdigit g self.
Proof.
  induction g as [|g IH]; intros g' self Hle Hd; [now contradiction Hd|].
  destruct g' as [|g']; [lia|].
  cbn [tokens_loop] in *.
  destruct (next_token isalpha isdigit (S g) self) as [[t ctl] s1|e s1|] eqn:E;
    [| |now contradiction Hd];
    rewrite (stable_next_token (S g) (S g') self)
      by (lia || (rewrite E; discriminate)); rewrite E; [|reflexivity].
  destruct ctl; [|reflexivity].
  destruct (tokens_loop isalpha isdigit g s1) as [[ts e] final] eqn:El.
  rewrite (IH g' s1) by (lia || (rewrite El; exact Hd)).
  now rewrite El.
Qed.

End Stable.

(** ** An embedded NUL ends the input *)

Section Truncation.

(** The text after the NUL. *)
Variable post : text.

Lemma cut_peek0 {s1 s2} : cut_view post s1 s2 -> _peek s1 0 = _peek s2 0.
Proof.
  intros (Hf & Hi & _ & _ & Hle). unfold _peek, Lexer.n.
  rewrite Hf, Hi, length_app, Nat.add_0_r. cbn [length].
  destruct (Nat.ltb_spec (Lexer.i s2) (length (Lexer.fuente s2))) as [H|H].
  - replace (Lexer.i s2 <? _) with true by (symmetry; apply Nat.ltb_lt; lia).
    now apply app_nth1.
  - replace (Lexer.i s2 <? _) with true by (symmetry; apply Nat.ltb_lt; lia).
    rewrite app_nth2 by lia.
    replace (Lexer.i s2 - length (Lexer.fuente s2)) with 0 by lia. reflexivity.
Qed.

Lemma peek_in_bounds s : _peek s 0 <> NUL -> Lexer.i s < length (Lexer.fuente s).
Proof.
  unfold _peek, Lexer.n. rewrite Nat.add_0_r.
  destruct (Nat.ltb_spec (Lexer.i s) (length (Lexer.fuente s))) as [Hlt|Hge];
    [auto|].
  intros H. now contradiction H.
Qed.

Lemma cut_peek1 {s1 s2} :
  cut_view post s1 s2 -> _peek s2 0 <> NUL -> _peek s1 1 = _peek s2 1.
Proof.
  intros (Hf & Hi & _ & _ & Hle) Hn. apply peek_in_bounds in Hn.
  unfold _peek, Lexer.n. rewrite Hf, Hi, length_app. cbn [length].
  replace (Lexer.i s2 + 1 <? _) with true by (symmetry; apply Nat.ltb_lt; lia).
  destruct (Nat.ltb_spec (Lexer.i s2 + 1) (length (Lexer.fuente s2))) as [H|H].
  - now apply app_nth1.
  - rewrite app_nth2 by lia.
    replace (Lexer.i s2 + 1 - length (Lexer.fuente s2)) with 0 by lia.
    reflexivity.
Qed.

Lemma cut_advance {s1 s2} :
  cut_view post s1 s2 -> _peek s2 0 <> NUL ->
  exists s1' s2',
    _advance s1 = Ok (_peek s2 0) s1' /\ _advance s2 = Ok (_peek s2 0) s2'
    /\ cut_view post s1' s2' /\ _peek s2' 0 = _peek s2 1.
Proof.
  intros HR Hn. pose proof (cut_peek0 HR) as H0.
  pose proof (peek_in_bounds _ Hn) as Hb.
  destruct HR as (Hf & Hi & Hl & Hc & Hle).
  unfold _advance. rewrite H0.
  destruct (_peek s2 0 == LF); do 2 eexists;
    (split; [reflexivity|]); (split; [reflexivity|]);
    (split; [unfold cut_view; cbn; repeat split; auto; lia|]);
    unfold _peek, Lexer.n; cbn; now rewrite Nat.add_0_r.
Qed.

Lemma cut_slice {s1 s2} a :
  cut_view post s1 s2 ->
  slice (Lexer.fuente s1) a (Lexer.i s1) = slice (Lexer.fuente s2) a (Lexer.i s2).
Proof.
  intros (Hf & Hi & _ & _ & Hle). unfold slice. rewrite Hf, Hi, skipn_app.
  rewrite firstn_app.
  replace (Lexer.i s2 - a - length (skipn a (Lexer.fuente s2))) with 0
    by (rewrite length_skipn; lia).
  cbn [firstn]. now rewrite app_nil_r.
Qed.

Lemma cut_bind {A B} (m1 m2 : Res A) (k : A -> M B) :
  cut_res post m1 m2 ->
  (forall a s1 s2, cut_view post s1 s2 -> cut_res post (k a s1) (k a s2)) ->
  cut_res post
    (match m1 with Ok a s => k a s | Raise e s => Raise e s | Diverge => Diverge end)
    (match m2 with Ok a s => k a s | Raise e s => Raise e s | Diverge => Diverge end).
Proof. intros [a s1 s2 H|e s1 s2 H|] Hk; [now apply Hk | now constructor | constructor]. Qed.

Lemma cut_advance_while p (Hnul : p NUL = false) gas :
  forall s1 s2,
    cut_view post s1 s2 -> cut_res post (advance_while p gas s1) (advance_while p gas s2).
Proof.
  induction gas as [|gas IH]; intros s1 s2 HR; [constructor|].
  cbn [advance_while]. unfold bind, this. rewrite (cut_peek0 HR).
  destruct (p (_peek s2 0)) eqn:E; [|now constructor].
  assert (Hn : _peek s2 0 <> NUL) by (intros H; rewrite H in E; congruence).
  destruct (cut_advance HR Hn) as (s1' & s2' & -> & -> & HR' & _).
  now apply IH.
Qed.

Lemma neq_of_ceq a b c : (a == b) = true -> b <> c -> a <> c.
Proof. intros H%ceq_eq. congruence. Qed.

Lemma cut_raise_at {A} msg s1 s2 :
  cut_view post s1 s2 ->
  @cut_res post A
    (Raise (LexerError msg (Lexer.linea s1) (Lexer.columna s1)) s1)
    (Raise (LexerError msg (Lexer.linea s2) (Lexer.columna s2)) s2).
Proof.
  intros HR. pose proof HR as (_ & _ & -> & -> & _). now constructor.
Qed.

(** Advances both scanners over a character that is known not to be NUL. *)
Tactic Notation "cut_step" constr(HR) constr(Hn)
       "as" ident(a) ident(b) ident(HR') ident(Hp) :=
  destruct (cut_advance HR Hn) as (a & b & -> & -> & HR' & Hp).

Lemma cut_skip_block_comment gas :
  forall s1 s2,
    cut_view post s1 s2 ->
    cut_res post (skip_block_comment gas s1) (skip_block_comment gas s2).
Proof.
  induction gas as [|gas IH]; intros s1 s2 HR; [constructor|].
  cbn [skip_block_comment]. unfold bind, this, raise. rewrite (cut_peek0 HR).
  destruct (ceq_spec (_peek s2 0) NUL) as [E|Hn]; [now apply cut_raise_at|].
  rewrite (cut_peek1 HR Hn).
  destruct ((_peek s2 0 == STAR) && (_peek s2 1 == SLASH)) eqn:Ec.
  - apply andb_prop in Ec as [_ E2].
    cut_step HR Hn as a1 a2 HRa Hp.
    assert (Hn' : _peek a2 0 <> NUL)
      by (rewrite Hp; apply (neq_of_ceq _ _ _ E2); discriminate).
    cut_step HRa Hn' as b1 b2 HRb Hq. now constructor.
  - cut_step HR Hn as a1 a2 HRa Hp. now apply IH.
Qed.

Lemma cut_skip_whitespace gas :
  forall s1 s2,
    cut_view post s1 s2 ->
    cut_res post (_skip_whitespace gas s1) (_skip_whitespace gas s2).
Proof.
  induction gas as [|gas IH]; intros s1 s2 HR; [constructor|].
  cbn [_skip_whitespace]. unfold bind, this. rewrite (cut_peek0 HR).
  destruct (ceq_spec (_peek s2 0) NUL) as [E|Hn].
  { rewrite E. cbn. now constructor. }
  rewrite (cut_peek1 HR Hn).
  destruct ((_peek s2 0 == SPACE) || (_peek s2 0 == TAB)
            || (_peek s2 0 == CR) || (_peek s2 0 == LF)).
  { cut_step HR Hn as a1 a2 HRa Hp. now apply IH. }
  destruct ((_peek s2 0 == SLASH) && (_peek s2 1 == SLASH)).
  { apply cut_bind; [|intros; now apply IH].
    now apply cut_advance_while. }
  destruct ((_peek s2 0 == SLASH) && (_peek s2 1 == STAR)) eqn:Ec;
    [|now constructor].
  apply andb_prop in Ec as [_ E2].
  cut_step HR Hn as a1 a2 HRa Hp.
  assert (Hn' : _peek a2 0 <> NUL)
    by (rewrite Hp; apply (neq_of_ceq _ _ _ E2); discriminate).
  cut_step HRa Hn' as b1 b2 HRb Hq.
  apply cut_bind; [|intros; now apply IH].
  now apply cut_skip_block_comment.
Qed.

Lemma cut_string_body gas si l c :
  forall s1 s2,
    cut_view post s1 s2 ->
    cut_res post (string_body gas si l c s1) (string_body gas si l c s2).
Proof.
  induction gas as [|gas IH]; intros s1 s2 HR; [constructor|].
  cbn [string_body]. unfold bind, this, raise. rewrite (cut_peek0 HR).
  destruct (ceq_spec (_peek s2 0) NUL) as [E|Hn]; [now constructor|].
  destruct (_peek s2 0 == LF); [now apply cut_raise_at|].
  destruct (_peek s2 0 == DQUOTE).
  { rewrite (cut_slice si HR). cut_step HR Hn as a1 a2 HRa Hp.
    now constructor. }
  destruct (_peek s2 0 == BACKSLASH); cut_step HR Hn as a1 a2 HRa Hp;
    [|now apply IH].
  rewrite (cut_peek0 HRa).
  destruct (ceq_spec (_peek a2 0) NUL) as [E|Hn']; cbn [negb]; unfold ret.
  - now apply IH.
  - cut_step HRa Hn' as b1 b2 HRb Hq. now apply IH.
Qed.

Lemma cut_scan_string gas :
  forall s1 s2,
    cut_view post s1 s2 -> _peek s2 0 <> NUL ->
    cut_res post (_scan_string gas s1) (_scan_string gas s2).
Proof.
  intros s1 s2 HR Hn. unfold _scan_string, bind, this.
  pose proof HR as (_ & _ & -> & -> & _).
  cut_step HR Hn as a1 a2 HRa Hp. pose proof HRa as (_ & -> & _).
  now apply cut_string_body.
Qed.

Section Classes.

Variable isalpha : char -> bool.
Variable isdigit : char -> bool.

(** In Python, ["\0".isalpha()] and ["\0".isdigit()] are [False]. *)
Hypothesis isalpha_NUL : isalpha NUL = false.
Hypothesis isdigit_NUL : isdigit NUL = false.

Lemma cut_scan_ident gas :
  forall s1 s2,
    cut_view post s1 s2 -> _peek s2 0 <> NUL ->
    cut_res post (_scan_ident_or_reserved isalpha isdigit gas s1)
            (_scan_ident_or_reserved isalpha isdigit gas s2).
Proof.
  intros s1 s2 HR Hn. unfold _scan_ident_or_reserved, bind, this, raise.
  rewrite (cut_peek0 HR). pose proof HR as (_ & -> & -> & -> & _).
  destruct (negb (is_letter isalpha (_peek s2 0))); [now constructor|].
  cut_step HR Hn as a1 a2 HRa Hp.
  apply cut_bind.
  { apply cut_advance_while; [|assumption].
    unfold is_letter, is_digit. now rewrite isalpha_NUL, isdigit_NUL. }
  intros _ s1' s2' HR'. rewrite (cut_slice (Lexer.i s2) HR').
  destruct (dict_get _ _); [now constructor|].
  destruct (set_mem _ _); now constructor.
Qed.

Lemma cut_scan_number gas :
  forall s1 s2,
    cut_view post s1 s2 ->
    cut_res post (_scan_number isdigit gas s1) (_scan_number isdigit gas s2).
Proof.
  intros s1 s2 HR. unfold _scan_number, digits, bind, this.
  pose proof HR as (_ & -> & -> & -> & _).
  apply cut_bind; [now apply cut_advance_while|].
  intros _ s3 s4 HR3. rewrite (cut_peek0 HR3).
  destruct (ceq_spec (_peek s4 0) NUL) as [E|Hn].
  { rewrite E. cbn. rewrite (cut_slice _ HR3). now constructor. }
  rewrite (cut_peek1 HR3 Hn).
  destruct ((_peek s4 0 == DOT) && isdigit (_peek s4 1)).
  - cut_step HR3 Hn as a1 a2 HRa Hp. rewrite (cut_peek0 HRa).
    destruct (negb (isdigit (_peek a2 0))); [now apply cut_raise_at|].
    apply cut_bind; [now apply cut_advance_while|].
    intros _ s5 s6 HR5. rewrite (cut_slice _ HR5). now constructor.
  - rewrite (cut_slice _ HR3). now constructor.
Qed.

Lemma cut_scan_token gas :
  forall s1 s2,
    cut_view post s1 s2 ->
    cut_res post (scan_token isalpha isdigit gas s1)
            (scan_token isalpha isdigit gas s2).
Proof.
  intros s1 s2 HR. unfold scan_token, bind, this.
  rewrite (cut_peek0 HR). pose proof HR as (_ & _ & -> & -> & _).
  destruct (ceq_spec (_peek s2 0) NUL) as [E|Hn]; [now constructor|].
  rewrite (cut_peek1 HR Hn).
  destruct (isalpha (_peek s2 0) || (_peek s2 0 == UNDERSCORE)).
  { apply cut_bind; [now apply cut_scan_ident | intros; now constructor]. }
  destruct (isdigit (_peek s2 0)).
  { apply cut_bind; [now apply cut_scan_number | intros; now constructor]. }
  destruct (_peek s2 0 == DQUOTE).
  { apply cut_bind; [now apply cut_scan_string | intros; now constructor]. }
  repeat lazymatch goal with
  | |- context [if (_peek s2 0 == ?c) && (_peek s2 1 == ?d) then _ else _] =>
      let E := fresh "E" in
      destruct ((_peek s2 0 == c) && (_peek s2 1 == d)) eqn:E;
      [ apply andb_prop in E as [_ E];
        let s3 := fresh "s" in let s4 := fresh "s" in
        let HR3 := fresh "HR" in let Hp := fresh "Hp" in
        destruct (cut_advance HR Hn) as (s3 & s4 & -> & -> & HR3 & Hp);
        assert (Hn' : _peek s4 0 <> NUL)
          by (rewrite Hp; apply (neq_of_ceq _ _ _ E); discriminate);
        let s5 := fresh "s" in let s6 := fresh "s" in
        let HR5 := fresh "HR" in
        destruct (cut_advance HR3 Hn') as (s5 & s6 & -> & -> & HR5 & _);
        now constructor
      | clear E ]
  end.
  cut_step HR Hn as a1 a2 HRa Hp.
  repeat lazymatch goal with
  | |- context [if ?b then _ else _] => destruct b; [now constructor|]
  end.
  now constructor.
Qed.

Lemma cut_next_token gas :
  forall s1 s2,
    cut_view post s1 s2 ->
    cut_res post (next_token isalpha isdigit gas s1)
            (next_token isalpha isdigit gas s2).
Proof.
  intros s1 s2 HR. unfold next_token, bind.
  apply cut_bind; [now apply cut_skip_whitespace|].
  intros _ s3 s4 HR3. now apply cut_scan_token.
Qed.

Lemma cut_tokens_loop gas :
  forall s1 s2,
    cut_view post s1 s2 ->
    fst (tokens_loop isalpha isdigit gas s1)
    = fst (tokens_loop isalpha isdigit gas s2)
    /\ (snd (fst (tokens_loop isalpha isdigit gas s2)) <> Unfinished ->
        cut_view post (snd (tokens_loop isalpha isdigit gas s1))
                 (snd (tokens_loop isalpha isdigit gas s2))).
Proof.
  induction gas as [|gas IH]; intros s1 s2 HR.
  { split; [reflexivity|]. intros H. now contradiction H. }
  cbn [tokens_loop].
  destruct (cut_next_token (S gas) s1 s2 HR) as [[t [|]] s3 s4 HR3|e s3 s4 HR3|].
  - destruct (IH s3 s4 HR3) as [Heq Hfin].
    destruct (tokens_loop isalpha isdigit gas s3) as [[ts1 e1] f1].
    destruct (tokens_loop isalpha isdigit gas s4) as [[ts2 e2] f2].
    cbn [fst snd] in *. injection Heq as -> ->. auto.
  - cbn. auto.
  - cbn. auto.
  - cbn. split; [reflexivity|]. intros H. now contradiction H.
Qed.

End Classes.

End Truncation.

(** ** The errors a method may raise *)

Lemma wfr_bind {A B} (m : Res A) (k : A -> M B) :
  well_formed_real m ->
  (forall a s, well_formed_real (k a s)) ->
  well_formed_real
    (match m with Ok a s => k a s | Raise e s => Raise e s | Diverge => Diverge end).
Proof. destruct m; auto. Qed.

Lemma peek_advance self c self' k :
  _advance self = Ok c self' -> _peek self' k = _peek self (S k).
Proof.
  unfold _advance. destruct (_peek self 0 == LF); intros H; injection H as _ <-;
    unfold _peek, Lexer.n; cbn; now rewrite <- Nat.add_assoc.
Qed.

Lemma wfr_advance_while p gas : forall self, well_formed_real (advance_while p gas self).
Proof.
  induction gas as [|gas IH]; intros self; [exact I|].
  cbn [advance_while]. unfold bind, this.
  destruct (p (_peek self 0)); [|exact I].
  destruct (advance_ok self) as [s1 ->]. apply IH.
Qed.

Lemma wfr_skip_block_comment gas :
  forall self, well_formed_real (skip_block_comment gas self).
Proof.
  induction gas as [|gas IH]; intros self; [exact I|].
  cbn [skip_block_comment]. unfold bind, this.
  destruct (_peek self 0 == NUL); [exact I|].
  destruct (advance_ok self) as [s1 E1].
  destruct ((_peek self 0 == STAR) && (_peek self 1 == SLASH)); rewrite E1.
  - destruct (advance_ok s1) as [s2 ->]. exact I.
  - apply IH.
Qed.

Lemma wfr_skip_whitespace gas :
  forall self, well_formed_real (_skip_whitespace gas self).
Proof.
  induction gas as [|gas IH]; intros self; [exact I|].
  cbn [_skip_whitespace]. unfold bind, this.
  destruct (advance_ok self) as [s1 E1].
  destruct ((_peek self 0 == SPACE) || (_peek self 0 == TAB)
            || (_peek self 0 == CR) || (_peek self 0 == LF)).
  { rewrite E1. apply IH. }
  destruct ((_peek self 0 == SLASH) && (_peek self 1 == SLASH)).
  { apply wfr_bind; [apply wfr_advance_while | intros; apply IH]. }
  destruct ((_peek self 0 == SLASH) && (_peek self 1 == STAR)); [|exact I].
  rewrite E1. destruct (advance_ok s1) as [s2 ->].
  apply wfr_bind; [apply wfr_skip_block_comment | intros; apply IH].
Qed.

Lemma wfr_string_body gas si l c :
  forall self, well_formed_real (string_body gas si l c self).
Proof.
  induction gas as [|gas IH]; intros self; [exact I|].
  cbn [string_body]. unfold bind, this, ret.
  destruct (_peek self 0 == NUL); [exact I|].
  destruct (_peek self 0 == LF); [exact I|].
  destruct (advance_ok self) as [s1 E1].
  destruct (_peek self 0 == DQUOTE); [now rewrite E1|].
  destruct (_peek self 0 == BACKSLASH); rewrite E1; [|apply IH].
  destruct (negb (_peek s1 0 == NUL)); [|apply IH].
  destruct (advance_ok s1) as [s2 ->]. apply IH.
Qed.

Section Raised.

Variable isalpha : char -> bool.
Variable isdigit : char -> bool.

Lemma wfr_scan_number gas self : well_formed_real (_scan_number isdigit gas self).
Proof.
  unfold _scan_number, digits, bind, this.
  apply wfr_bind; [apply wfr_advance_while|]. intros _ s1.
  destruct ((_peek s1 0 == DOT) && isdigit (_peek s1 1)) eqn:Ec; [|exact I].
  apply andb_prop in Ec as [_ Ed].
  destruct (advance_ok s1) as [s2 E2]. rewrite E2.
  rewrite (peek_advance _ _ _ 0 E2), Ed. cbn [negb].
  apply wfr_bind; [apply wfr_advance_while | intros; exact I].
Qed.

Lemma wfr_scan_ident gas self :
  well_formed_real (_scan_ident_or_reserved isalpha isdigit gas self).
Proof.
  unfold _scan_ident_or_reserved, ident_tail, bind, this.
  destruct (negb (is_letter isalpha (_peek self 0))); [exact I|].
  destruct (advance_ok self) as [s1 ->].
  apply wfr_bind; [apply wfr_advance_while|]. intros _ s2.
  destruct (dict_get _ _); [exact I|]. destruct (set_mem _ _); exact I.
Qed.

Lemma wfr_scan_string gas self : well_formed_real (_scan_string gas self).
Proof.
  unfold _scan_string, bind, this.
  destruct (advance_ok self) as [s1 ->]. apply wfr_string_body.
Qed.

Lemma wfr_scan_token gas self :
  well_formed_real (scan_token isalpha isdigit gas self).
Proof.
  unfold scan_token, bind, this.
  destruct (_peek self 0 == NUL); [exact I|].
  destruct (isalpha (_peek self 0) || (_peek self 0 == UNDERSCORE)).
  { apply wfr_bind; [apply wfr_scan_ident | intros; exact I]. }
  destruct (isdigit (_peek self 0)).
  { apply wfr_bind; [apply wfr_scan_number | intros; exact I]. }
  destruct (_peek self 0 == DQUOTE).
  { apply wfr_bind; [apply wfr_scan_string | intros; exact I]. }
  destruct (advance_ok self) as [s1 E1].
  destruct (advance_ok s1) as [s2 E2].
  repeat lazymatch goal with
  | |- context [if ?b then _ else _] =>
      destruct b; [rewrite ?E1, ?E2; exact I|]
  end.
  rewrite E1.
  repeat lazymatch goal with
  | |- context [if ?b then _ else _] => destruct b; [exact I|]
  end.
  exact I.
Qed.

Lemma wfr_next_token gas self :
  well_formed_real (next_token isalpha isdigit gas self).
Proof.
  unfold next_token, bind.
  apply wfr_bind; [apply wfr_skip_whitespace | intros; apply wfr_scan_token].
Qed.

Lemma wfr_tokens_loop gas :
  forall self l c,
    snd (fst (tokens_loop isalpha isdigit gas self))
    <> Raised (LexerError SeEsperabaDigito l c).
Proof.
  induction gas as [|gas IH]; intros self l c; [discriminate|].
  cbn [tokens_loop].
  pose proof (wfr_next_token (S gas) self) as H.
  destruct (next_token isalpha isdigit (S gas) self) as [[t [|]] s1|e s1|].
  - specialize (IH s1 l c).
    destruct (tokens_loop isalpha isdigit gas s1) as [[ts e] f]. exact IH.
  - discriminate.
  - cbn. intros Heq. injection Heq as ->. exact H.
  - discriminate.
Qed.

End Raised.

(** ** The cursor moves forward *)

Lemma before_bump p c : before p (bump p c).
Proof. unfold before, bump. destruct (c == LF); simpl; lia. Qed.

Lemma before_trans a b c : before a b -> before b c -> before a c.
Proof. unfold before. lia. Qed.

Lemma before_fold x : forall p c, before p (fold_left bump x (bump p c)).
Proof.
  induction x as [|d x IH]; intros p c; cbn [fold_left].
  - apply before_bump.
  - eapply before_trans; [apply before_bump | apply IH].
Qed.

Lemma cursor_after_moves done x :
  x <> [] -> cursor_after (done ++ x) <> cursor_after done.
Proof.
  intros Hx. destruct x as [|c x]; [contradiction|].
  unfold cursor_after. rewrite fold_left_app. cbn [fold_left].
  pose proof (before_fold x (fold_left bump done (1, 1)) c) as H.
  intros Heq. rewrite Heq in H. unfold before in H. lia.
Qed.

Lemma skip_block_comment_unclosed :
  forall body gas done,
    unclosed body = true ->
    length body < gas ->
    skip_block_comment gas (scanner_at done body)
    = Raise (LexerError ComentarioBloqueSinCerrar
                        (fst (cursor_after (done ++ body)))
                        (snd (cursor_after (done ++ body))))
            (scanner_at (done ++ body) []).
Proof.
  induction body as [|c body IH]; intros gas done Hu Hgas;
    (destruct gas as [|gas]; [simpl in Hgas; lia|]);
    cbn [skip_block_comment]; unfold bind, this, raise.
  - rewrite peek0_nil. cbn. now rewrite app_nil_r.
  - cbn [unclosed] in Hu. apply andb_prop in Hu as [Hu Hrest].
    apply andb_prop in Hu as [H1 H2].
    rewrite peek0_cons, peek1_cons.
    apply negb_true_iff in H1, H2. rewrite H1, H2, advance_at.
    rewrite IH by (assumption || (simpl in Hgas; lia)).
    now rewrite <- !app_assoc.
Qed.

Lemma skip_whitespace_unclosed gas done body :
  unclosed body = true ->
  length (SLASH :: STAR :: body) < gas ->
  _skip_whitespace gas (scanner_at done (SLASH :: STAR :: body))
  = Raise (LexerError ComentarioBloqueSinCerrar
                      (fst (cursor_after (done ++ SLASH :: STAR :: body)))
                      (snd (cursor_after (done ++ SLASH :: STAR :: body))))
          (scanner_at (done ++ SLASH :: STAR :: body) []).
Proof.
  intros Hu Hgas. destruct gas as [|gas]; [simpl in Hgas; lia|].
  cbn [_skip_whitespace]. unfold bind, this.
  rewrite peek0_cons, peek1_cons. cbn [hd].
  cbn [ceq N.eqb SLASH SPACE TAB CR LF STAR Pos.eqb orb andb].
  rewrite !advance_at.
  rewrite skip_block_comment_unclosed by (assumption || (simpl in Hgas; lia)).
  now rewrite <- !app_assoc.
Qed.

Section Unexpected.

Variable isalpha : char -> bool.
Variable isdigit : char -> bool.

(** A character that starts no token raises the error of an unexpected
    symbol, at its own line and column. *)
Lemma unexpected_symbol gas done ch rest :
  ch <> NUL -> isalpha ch = false -> ch <> UNDERSCORE ->
  isdigit ch = false -> ch <> DQUOTE -> single_operator ch = false ->
  (ch == AMP) && (hd NUL rest == AMP) = false ->
  (ch == PIPE) && (hd NUL rest == PIPE) = false ->
  scan_token isalpha isdigit gas (scanner_at done (ch :: rest))
  = Raise (LexerError (SimboloInesperado ch)
                      (fst (cursor_after done)) (snd (cursor_after done)))
          (scanner_at (done ++ [ch]) rest).
Proof.
  intros Hnul Ha Hu Hd Hq Hop Hamp Hpipe.
  unfold scan_token, bind, this, raise. rewrite peek0_cons, peek1_cons.
  apply ceq_neq in Hnul, Hu, Hq. rewrite Hnul, Ha, Hu, Hd, Hq, Hamp, Hpipe.
  unfold single_operator in Hop.
  repeat (apply orb_false_elim in Hop as [Hop ?]).
  assert (Hall : forall c, In c [PLUS; MINUS; STAR; SLASH; LT; GT; BANG; EQUALS;
                                 SEMI; COMMA; LPAREN; RPAREN; LBRACE; RBRACE] ->
                           (ch == c) = false)
    by (intros c Hc; cbn [In] in Hc; intuition (subst; assumption)).
  rewrite !Hall by (cbn [In]; tauto). cbn [orb andb]. rewrite advance_at.
  rewrite !Hall by (cbn [In]; tauto). reflexivity.
Qed.

End Unexpected.

(** ** The token stream *)

Section Stream.

Variable isalpha : char -> bool.
Variable isdigit : char -> bool.

(** In Python, ["\0".isalpha()] and ["\0".isdigit()] are [False]. *)
Hypothesis isalpha_NUL : isalpha NUL = false.
Hypothesis isdigit_NUL : isdigit NUL = false.

(** The end of a finished run, read off its characterisation. *)
Lemma finished_run fuente ps final :
  run_spec [] fuente ps Finished final ->
  exists rest',
    fuente = concat (map piece_source ps) ++ rest'
    /\ final = scanner_at (concat (map piece_source ps)) rest'
    /\ hd NUL rest' = NUL
    /\ exists pre,
        yielded ps = pre ++ [eof_token (concat (map piece_source ps))]
        /\ Forall (fun t => tipo t <> TOKEN.eof) pre.
Proof.
  intros Hrun. apply run_spec_end in Hrun as (_ & extra & rest' & Hf & Hs & Hfin).
  destruct (Hfin eq_refl) as (-> & Hhd & pre & Hy & Hpre).
  cbn [app] in *. rewrite app_nil_r in Hs. eauto 8.
Qed.

Lemma sentinel_without_NUL rest :
  hd NUL rest = NUL -> ~ In NUL rest -> rest = [].
Proof.
  destruct rest as [|c rest]; [reflexivity|]. cbn [hd]. intros -> H.
  exfalso. apply H. now left.
Qed.

(** C1 (amended): the scan of any input ends, finished or with an error; a
    finished scan yields exactly one end marker, of lexeme "$", as its last
    token, at the cursor where it stopped; the current character is then the
    sentinel, so that the input is consumed whole or an embedded NUL is the
    current character, and on NUL-free input it is consumed whole. *)
Theorem tokens_end_marker fuente :
  let '(ts, e, final) := run isalpha isdigit fuente in
  e <> Unfinished
  /\ (e = Finished ->
      (exists pre,
          ts = pre ++ [mkToken TOKEN.eof (str "$")
                               (Lexer.linea final) (Lexer.columna final)]
          /\ Forall (fun t => tipo t <> TOKEN.eof) pre)
      /\ _peek final 0 = NUL
      /\ Lexer.i final <= length fuente
      /\ (~ In NUL fuente -> Lexer.i final = length fuente)).
Proof.
  rewrite run_trace.
  destruct (trace_run isalpha isdigit isalpha_NUL isdigit_NUL fuente)
    as (ps & e & final & -> & Hrun).
  split; [apply (run_spec_end Hrun)|].
  intros ->. apply finished_run in Hrun as (rest' & -> & -> & Hhd & pre & -> & Hpre).
  cbn [scanner_at Lexer.i]. rewrite length_app.
  repeat split.
  - now exists pre.
  - rewrite <- Hhd. apply peek0_at.
  - lia.
  - intros Hnul.
    rewrite (sentinel_without_NUL rest' Hhd)
      by (intros H; apply Hnul, in_or_app; now right).
    simpl. lia.
Qed.

(** C2 (amended): in source order, the skipped text and the source text of
    each token - its lexeme, inside its two quotes for a string literal, and
    nothing for the end marker - rebuild the source exactly up to the cursor
    of a finished scan, and up to the start of the failed attempt otherwise. *)
Theorem trace_rebuilds_source fuente :
  let '(ps, e, final) := trace isalpha isdigit fuente in
  e <> Unfinished
  /\ (yielded ps, e) = tokens isalpha isdigit fuente
  /\ exists p,
      p <= Lexer.i final <= length fuente
      /\ concat (map piece_source ps) = firstn p fuente
      /\ (e = Finished -> p = Lexer.i final).
Proof.
  unfold tokens. rewrite run_trace.
  destruct (trace_run isalpha isdigit isalpha_NUL isdigit_NUL fuente)
    as (ps & e & final & -> & Hrun).
  apply run_spec_end in Hrun as (He & extra & rest' & Hf & -> & Hfin).
  split; [exact He|]. split; [reflexivity|].
  exists (length (concat (map piece_source ps))).
  subst fuente. cbn [scanner_at Lexer.i app]. rewrite !length_app.
  repeat split; try lia.
  - symmetry. apply firstn_prefix.
  - intros Hfinished. destruct (Hfin Hfinished) as (-> & _). simpl. lia.
Qed.

(** C8: one [_advance] returns the current character and moves the position
    by one; on a newline the line grows by one and the column is 1 again,
    otherwise the column grows by one on the same line.  So every token of a
    scan records one more than the newlines before it as its line, and as its
    column one more than the characters since the last of them. *)
Theorem advance_cursor_invariant fuente :
  (forall self,
      exists self',
        _advance self = Ok (_peek self 0) self'
        /\ Lexer.fuente self' = Lexer.fuente self
        /\ Lexer.i self' = Lexer.i self + 1
        /\ (if _peek self 0 == LF
            then Lexer.linea self' = Lexer.linea self + 1
                 /\ Lexer.columna self' = 1
            else Lexer.linea self' = Lexer.linea self
                 /\ Lexer.columna self' = Lexer.columna self + 1))
  /\ yielded (fst (fst (trace isalpha isdigit fuente)))
     = fst (tokens isalpha isdigit fuente)
  /\ (forall ps1 t ps2,
        fst (fst (trace isalpha isdigit fuente)) = ps1 ++ Scanned t :: ps2 ->
        let before := concat (map piece_source ps1) in
        (exists after, fuente = before ++ token_source t ++ after)
        /\ linea t = newlines before + 1
        /\ columna t = length (last_line before) + 1)
  /\ (forall s, cursor_after (s ++ [LF]) = (newlines s + 2, 1)).
Proof.
  split; [|split; [|split]].
  - intros self. unfold _advance. destruct (_peek self 0 == LF) eqn:E;
      eexists; (split; [reflexivity|]); cbn; auto.
  - unfold tokens. rewrite run_trace.
    now destruct (trace isalpha isdigit fuente) as [[ps e] final].
  - destruct (trace_run isalpha isdigit isalpha_NUL isdigit_NUL fuente)
      as (ps & e & final & -> & Hrun).
    cbn [fst]. intros ps1 t ps2 ->.
    destruct (run_spec_position Hrun ps1 t ps2 eq_refl) as (Hsplit & Hl & Hc).
    cbn [app] in Hl, Hc. rewrite cursor_after_spec in Hl, Hc.
    cbv zeta. auto.
  - apply cursor_after_newline.
Qed.

End Stream.

Lemma tokens_end_marker_witness :
  latin1_isalpha NUL = false /\ latin1_isdigit NUL = false
  /\ let '(ts, e, final) := run latin1_isalpha latin1_isdigit (str "x = 1;") in
     e <> Unfinished
     /\ (e = Finished ->
         (exists pre,
             ts = pre ++ [mkToken TOKEN.eof (str "$")
                                  (Lexer.linea final) (Lexer.columna final)]
             /\ Forall (fun t => tipo t <> TOKEN.eof) pre)
         /\ _peek final 0 = NUL
         /\ Lexer.i final <= length (str "x = 1;")
         /\ (~ In NUL (str "x = 1;") -> Lexer.i final = length (str "x = 1;"))).
Proof.
  split; [reflexivity|]. split; [reflexivity|].
  exact (tokens_end_marker latin1_isalpha latin1_isdigit eq_refl eq_refl
                           (str "x = 1;")).
Defined.

(** C1 as stated fails: on a NUL followed by [a] the scan finishes with its
    end marker while the cursor is still at position 0 of 2. *)
Lemma eof_before_end_of_input :
  ~ eof_only_at_end latin1_isalpha latin1_isdigit [NUL; 97%N].
Proof.
  unfold eof_only_at_end. intros H. vm_compute in H.
  destruct (H eq_refl) as [_ Hi]. discriminate Hi.
Qed.

Lemma trace_rebuilds_source_witness :
  latin1_isalpha NUL = false /\ latin1_isdigit NUL = false
  /\ let '(ps, e, final) :=
       trace latin1_isalpha latin1_isdigit (DQUOTE :: str "a" ++ [DQUOTE; SPACE]) in
     e <> Unfinished
     /\ (yielded ps, e)
        = tokens latin1_isalpha latin1_isdigit
                 (DQUOTE :: str "a" ++ [DQUOTE; SPACE])
     /\ exists p,
         p <= Lexer.i final <= length (DQUOTE :: str "a" ++ [DQUOTE; SPACE])
         /\ concat (map piece_source ps)
            = firstn p (DQUOTE :: str "a" ++ [DQUOTE; SPACE])
         /\ (e = Finished -> p = Lexer.i final).
Proof.
  split; [reflexivity|]. split; [reflexivity|].
  exact (trace_rebuilds_source latin1_isalpha latin1_isdigit eq_refl eq_refl
                               (DQUOTE :: str "a" ++ [DQUOTE; SPACE])).
Defined.

(** C2 as stated fails: the string literal of one [a] between its quotes
    yields the lexemes [a] and [$], which are no prefix of the source (nor is
    [a] alone). *)
Lemma lexemes_miss_quotes :
  ~ lexemes_rebuild_source latin1_isalpha latin1_isdigit
      (DQUOTE :: str "a" ++ [DQUOTE]).
Proof.
  unfold lexemes_rebuild_source. vm_compute. discriminate.
Qed.

Lemma advance_cursor_invariant_witness :
  latin1_isalpha NUL = false /\ latin1_isdigit NUL = false
  /\ (forall self,
      exists self',
        _advance self = Ok (_peek self 0) self'
        /\ Lexer.fuente self' = Lexer.fuente self
        /\ Lexer.i self' = Lexer.i self + 1
        /\ (if _peek self 0 == LF
            then Lexer.linea self' = Lexer.linea self + 1
                 /\ Lexer.columna self' = 1
            else Lexer.linea self' = Lexer.linea self
                 /\ Lexer.columna self' = Lexer.columna self + 1))
  /\ yielded (fst (fst (trace latin1_isalpha latin1_isdigit
                                (str "a" ++ LF :: str " b"))))
     = fst (tokens latin1_isalpha latin1_isdigit (str "a" ++ LF :: str " b"))
  /\ (forall ps1 t ps2,
        fst (fst (trace latin1_isalpha latin1_isdigit
                        (str "a" ++ LF :: str " b")))
        = ps1 ++ Scanned t :: ps2 ->
        let before := concat (map piece_source ps1) in
        (exists after,
            str "a" ++ LF :: str " b" = before ++ token_source t ++ after)
        /\ linea t = newlines before + 1
        /\ columna t = length (last_line before) + 1)
  /\ (forall s, cursor_after (s ++ [LF]) = (newlines s + 2, 1)).
Proof.
  split; [reflexivity|]. split; [reflexivity|].
  exact (advance_cursor_invariant latin1_isalpha latin1_isdigit
           eq_refl eq_refl (str "a" ++ LF :: str " b")).
Defined.

(** ** Literals *)

(** C3: [_scan_number] consumes the longest run of digits; when a dot and
    then a digit follow, it consumes the dot and the longest run of digits
    after it and returns a [real] token whose lexeme is all the text consumed,
    dot included; otherwise it returns an [entero] token of the digits alone
    and leaves the cursor before the dot.  "12.5" is one [real] token, and
    "12." is the [entero] token "12" followed by the error on the dot. *)
Theorem scan_number_correct (isdigit : char -> bool) (done rest : text)
  (gas : nat) :
  isdigit NUL = false ->
  length rest < gas ->
  let ds := take_while isdigit rest in
  let r1 := drop_while isdigit rest in
  let l := fst (cursor_after done) in
  let c := snd (cursor_after done) in
  rest = ds ++ r1
  /\ _scan_number isdigit gas (scanner_at done rest)
     = (if (hd NUL r1 == DOT) && isdigit (nth 1 r1 NUL)
        then
          let fs := take_while isdigit (tl r1) in
          Ok (mkToken TOKEN.real (ds ++ DOT :: fs) l c)
             (scanner_at (done ++ ds ++ DOT :: fs) (drop_while isdigit (tl r1)))
        else
          Ok (mkToken TOKEN.entero ds l c) (scanner_at (done ++ ds) r1))
  /\ tokens_latin1 (str "12.5")
     = ([mkToken TOKEN.real (str "12.5") 1 1; mkToken TOKEN.eof (str "$") 1 5],
        Finished)
  /\ tokens_latin1 (str "12.")
     = ([mkToken TOKEN.entero (str "12") 1 1],
        Raised (LexerError (SimboloInesperado DOT) 1 3)).
Proof.
  intros Hd Hgas. cbv zeta. split; [|split; [|split]].
  - symmetry. apply take_drop_while.
  - now apply scan_number_at.
  - reflexivity.
  - reflexivity.
Qed.

Lemma scan_number_correct_witness :
  latin1_isdigit NUL = false
  /\ length (str "3.14;") < 6
  /\ _scan_number latin1_isdigit 6 (scanner_at (str "x=") (str "3.14;"))
     = Ok (mkToken TOKEN.real (str "3.14") 1 3)
          (scanner_at (str "x=3.14") (str ";")).
Proof.
  split; [reflexivity|]. split; [vm_compute; lia|].
  exact (proj1 (proj2 (scan_number_correct latin1_isdigit (str "x=")
                         (str "3.14;") 6 eq_refl ltac:(vm_compute; lia)))).
Defined.

(** C4: a string literal that is closed gives a [cadena] token whose lexeme
    is the text between the opening quote and the closing one, which is
    consumed; the lexeme is made of plain characters and of pairs of a
    backslash and the character after it, both kept as they are, and every
    such content followed by a quote is scanned so.  The eight characters
    quote, a, b, backslash, quote, c, d, quote are one [cadena] token of the
    six characters a, b, backslash, quote, c, d. *)
Theorem scan_string_closed (done rest : text) (gas : nat) :
  length rest < gas ->
  let l := fst (cursor_after done) in
  let c := snd (cursor_after done) in
  (forall t self',
      _scan_string gas (scanner_at done (DQUOTE :: rest)) = Ok t self' ->
      exists body rest',
        rest = body ++ DQUOTE :: rest'
        /\ str_content body
        /\ t = mkToken TOKEN.cadena body l c
        /\ self' = scanner_at (done ++ DQUOTE :: body ++ [DQUOTE]) rest')
  /\ (forall body rest',
        str_content body ->
        rest = body ++ DQUOTE :: rest' ->
        _scan_string gas (scanner_at done (DQUOTE :: rest))
        = Ok (mkToken TOKEN.cadena body l c)
             (scanner_at (done ++ DQUOTE :: body ++ [DQUOTE]) rest'))
  /\ tokens_latin1
       (DQUOTE :: str "ab" ++ BACKSLASH :: DQUOTE :: str "cd" ++ [DQUOTE])
     = ([mkToken TOKEN.cadena (str "ab" ++ BACKSLASH :: DQUOTE :: str "cd") 1 1;
         mkToken TOKEN.eof (str "$") 1 9],
        Finished).
Proof.
  intros Hgas. cbv zeta. split; [|split].
  - intros t self' Heq.
    pose proof (scan_string_at gas done DQUOTE rest Hgas) as H.
    rewrite Heq in H. destruct H as (body & rest' & Hr & Hb & Hs & Ht).
    exists body, rest'. auto.
  - intros body rest' Hb ->. rewrite scan_string_unfold.
    rewrite (string_body_closed body Hb)
      by (rewrite length_app in Hgas; lia).
    f_equal. apply scanner_at_eq; [|reflexivity].
    rewrite <- !app_assoc. reflexivity.
  - reflexivity.
Qed.

Lemma scan_string_closed_witness :
  length (str "a" ++ [DQUOTE; SEMI]) < 4
  /\ _scan_string 4 (scanner_at [] (DQUOTE :: str "a" ++ [DQUOTE; SEMI]))
     = Ok (mkToken TOKEN.cadena (str "a") 1 1)
          (scanner_at (DQUOTE :: str "a" ++ [DQUOTE]) [SEMI]).
Proof.
  split; [vm_compute; lia|].
  refine (proj1 (proj2 (scan_string_closed [] (str "a" ++ [DQUOTE; SEMI]) 4
                          ltac:(vm_compute; lia)))
                (str "a") [SEMI] _ eq_refl).
  apply sc_plain; try discriminate. apply sc_nil.
Defined.

(** C5: when [_scan_string] raises the error of an unterminated string, the
    error carries the line and column of the opening quote; and it raises it
    whenever the input ends, or a NUL stands, after the content of the string
    or after one more backslash. *)
Theorem unterminated_string_at_opening (done rest : text) (gas : nat) :
  length rest < gas ->
  (forall l c self',
      _scan_string gas (scanner_at done (DQUOTE :: rest))
      = Raise (LexerError CadenaSinCerrar l c) self' ->
      l = fst (cursor_after done) /\ c = snd (cursor_after done))
  /\ (forall body tail,
        str_content body -> runs_out tail -> rest = body ++ tail ->
        exists self',
          _scan_string gas (scanner_at done (DQUOTE :: rest))
          = Raise (LexerError CadenaSinCerrar
                              (fst (cursor_after done)) (snd (cursor_after done)))
                  self')
  /\ tokens_latin1 (DQUOTE :: str "abc")
     = ([], Raised (LexerError CadenaSinCerrar 1 1))
  /\ tokens_latin1 (str "x;" ++ LF :: str "  " ++ DQUOTE :: str "abc" ++ [BACKSLASH])
     = ([mkToken TOKEN.identificador (str "x") 1 1;
         mkToken TOKEN.semi (str ";") 1 2],
        Raised (LexerError CadenaSinCerrar 2 3)).
Proof.
  intros Hgas. split; [|split; [|split]].
  - intros l c self' Heq.
    pose proof (scan_string_at gas done DQUOTE rest Hgas) as H.
    rewrite Heq in H. destruct H as [_ H]. exact H.
  - intros body tail Hb Ht ->. rewrite scan_string_unfold.
    apply (string_body_runs_out body Hb); assumption.
  - reflexivity.
  - reflexivity.
Qed.

Lemma unterminated_string_at_opening_witness :
  length (str "ab" ++ [BACKSLASH]) < 4
  /\ exists self',
      _scan_string 4 (scanner_at (str "x ") (DQUOTE :: str "ab" ++ [BACKSLASH]))
      = Raise (LexerError CadenaSinCerrar 1 3) self'.
Proof.
  split; [vm_compute; lia|].
  refine (proj1 (proj2 (unterminated_string_at_opening (str "x ")
                          (str "ab" ++ [BACKSLASH]) 4 ltac:(vm_compute; lia)))
                (str "ab") [BACKSLASH] _ _ eq_refl).
  - apply sc_plain; try discriminate. apply sc_plain; try discriminate.
    apply sc_nil.
  - apply ro_backslash. reflexivity.
Defined.

(** ** Errors *)

(** C9: in [_scan_number] the dot is consumed only when a digit follows it,
    so the character after the consumed dot is a digit and the error of a
    dot without a digit is never raised, by [_scan_number] or by a scan. *)
Theorem malformed_real_unreachable (isalpha isdigit : char -> bool) :
  (forall self c self',
      _peek self 0 = DOT -> isdigit (_peek self 1) = true ->
      _advance self = Ok c self' ->
      c = DOT /\ isdigit (_peek self' 0) = true)
  /\ (forall gas self l c self',
        _scan_number isdigit gas self
        <> Raise (LexerError SeEsperabaDigito l c) self')
  /\ (forall fuente l c,
        snd (tokens isalpha isdigit fuente)
        <> Raised (LexerError SeEsperabaDigito l c)).
Proof.
  split; [|split].
  - intros self c self' H0 H1 Ha. rewrite (peek_advance _ _ _ 0 Ha).
    split; [|assumption].
    destruct (advance_ok self) as [s E]. rewrite E in Ha. injection Ha as <- _.
    assumption.
  - intros gas self l c self' H.
    pose proof (wfr_scan_number isdigit gas self) as Hw. rewrite H in Hw.
    exact Hw.
  - intros fuente l c. apply wfr_tokens_loop.
Qed.

(** C6 (amended): the error of an unterminated block comment carries the
    line and column of the cursor where the input ran out, which is the
    position of no character consumed before, so never that of the opening
    delimiter of the comment; a comment that opens at the cursor and is never
    closed gives the error at the end of the input. *)
Theorem unterminated_comment_at_cursor (done rest : text) (gas : nat) :
  length rest < gas ->
  (forall e self',
      _skip_whitespace gas (scanner_at done rest) = Raise e self' ->
      e = LexerError ComentarioBloqueSinCerrar
                     (Lexer.linea self') (Lexer.columna self')
      /\ _peek self' 0 = NUL
      /\ exists w rest',
          rest = w ++ rest' /\ past_opening w
          /\ self' = scanner_at (done ++ w) rest'
          /\ forall w0 x,
              w = w0 ++ x -> x <> [] ->
              (Lexer.linea self', Lexer.columna self')
              <> cursor_after (done ++ w0))
  /\ (forall body,
        rest = SLASH :: STAR :: body -> unclosed body = true ->
        _skip_whitespace gas (scanner_at done rest)
        = Raise (LexerError ComentarioBloqueSinCerrar
                            (fst (cursor_after (done ++ rest)))
                            (snd (cursor_after (done ++ rest))))
                (scanner_at (done ++ rest) []))
  /\ tokens_latin1 (str "x /* a")
     = ([mkToken TOKEN.identificador (str "x") 1 1],
        Raised (LexerError ComentarioBloqueSinCerrar 1 7)).
Proof.
  intros Hgas. split; [|split].
  - intros e self' Heq.
    pose proof (skip_whitespace_at gas done rest Hgas) as H. rewrite Heq in H.
    destruct H as (w & rest' & -> & -> & Hhd & -> & Hw).
    split; [reflexivity|]. split; [now rewrite peek0_at|].
    exists w, rest'. repeat split; [assumption|].
    intros w0 x -> Hx.
    cbn [scanner_at Lexer.linea Lexer.columna]. rewrite <- surjective_pairing.
    rewrite app_assoc. now apply cursor_after_moves.
  - intros body -> Hu. now apply skip_whitespace_unclosed.
  - reflexivity.
Qed.

Lemma unterminated_comment_at_cursor_witness :
  length (str "/* a*") < 7
  /\ _skip_whitespace 7 (scanner_at (str "x;") (str "/* a*"))
     = Raise (LexerError ComentarioBloqueSinCerrar 1 8)
             (scanner_at (str "x;/* a*") []).
Proof.
  split; [vm_compute; lia|].
  exact (proj1 (proj2 (unterminated_comment_at_cursor (str "x;") (str "/* a*") 7
                         ltac:(vm_compute; lia)))
               (str " a*") eq_refl eq_refl).
Defined.

(** C6 as stated fails: for the unterminated comment [/* a] at the start of
    the input the error is at line 1, column 5, not at column 1. *)
Lemma comment_error_not_at_opening : ~ comment_error_at_opening [] (str " a").
Proof.
  intros H. specialize (H 5 _ _ eq_refl). discriminate H.
Qed.

(** C7 on the code: a letter outside ASCII starts an identifier, and a digit
    outside ASCII a number, where the claim has the error of an unexpected
    symbol: on the one character U+00F1 the scan yields an identifier, on
    U+00B2 an integer. *)
Theorem non_ascii_letter_starts_identifier :
  latin1_isalpha 241%N = true
  /\ tokens_latin1 [241%N]
     = ([mkToken TOKEN.identificador [241%N] 1 1;
         mkToken TOKEN.eof (str "$") 1 2], Finished)
  /\ tokens_latin1 [178%N]
     = ([mkToken TOKEN.entero [178%N] 1 1;
         mkToken TOKEN.eof (str "$") 1 2], Finished).
Proof. repeat split. Qed.

(** ** The sentinel *)

Section Sentinel.

Variable isalpha : char -> bool.
Variable isdigit : char -> bool.

(** In Python, ["\0".isalpha()] and ["\0".isdigit()] are [False]. *)
Hypothesis isalpha_NUL : isalpha NUL = false.
Hypothesis isdigit_NUL : isdigit NUL = false.

(** Every run ends, within its text. *)
Lemma run_settles fuente :
  snd (fst (run isalpha isdigit fuente)) <> Unfinished
  /\ Lexer.i (snd (run isalpha isdigit fuente)) <= length fuente
  /\ Lexer.fuente (snd (run isalpha isdigit fuente)) = fuente.
Proof.
  rewrite run_trace.
  destruct (trace_run isalpha isdigit isalpha_NUL isdigit_NUL fuente)
    as (ps & e & final & -> & Hrun).
  apply run_spec_end in Hrun as (He & extra & rest' & -> & -> & _).
  cbn [fst snd scanner_at Lexer.i Lexer.fuente app].
  rewrite <- !app_assoc, !length_app. repeat split; [assumption | lia].
Qed.

Lemma cut_view_init pre post :
  cut_view post (Lexer.init (pre ++ NUL :: post)) (Lexer.init pre).
Proof. unfold cut_view. cbn. repeat split. lia. Qed.

(** The run on a text followed by a NUL and more is the run on the text. *)
Lemma run_cut pre post :
  fst (run isalpha isdigit (pre ++ NUL :: post)) = fst (run isalpha isdigit pre)
  /\ cut_view post (snd (run isalpha isdigit (pre ++ NUL :: post)))
                   (snd (run isalpha isdigit pre)).
Proof.
  destruct (run_settles pre) as (Hend & _ & _).
  unfold run in *.
  assert (Hgas : S (length pre) <= S (length (pre ++ NUL :: post)))
    by (rewrite length_app; lia).
  pose proof (stable_tokens_loop isalpha isdigit _ _ (Lexer.init pre) Hgas Hend)
    as Hst.
  destruct (cut_tokens_loop post isalpha isdigit isalpha_NUL isdigit_NUL
              (S (length (pre ++ NUL :: post)))
              _ _ (cut_view_init pre post)) as [Heq Hfin].
  rewrite Hst in Heq, Hfin. auto.
Qed.

End Sentinel.

(** * Further properties of the scanner *)

(** ** Identifiers and reserved words *)

Lemma text_eqb_eq a : forall b, text_eqb a b = true <-> a = b.
Proof.
  induction a as [|x a IH]; intros [|y b]; cbn [text_eqb];
    try (split; (discriminate || reflexivity)).
  rewrite andb_true_iff, ceq_eq, IH. split.
  - now intros [-> ->].
  - intros H. now injection H.
Qed.

Lemma text_eqb_neq a b : text_eqb a b = false <-> a <> b.
Proof.
  rewrite <- not_true_iff_false. now rewrite text_eqb_eq.
Qed.

(** The code of a lexeme, word by word. *)
Lemma classify_spec lex :
  (classify lex = TOKEN.if_ <-> lex = str "if")
  /\ (classify lex = TOKEN.while <-> lex = str "while")
  /\ (classify lex = TOKEN.return_ <-> lex = str "return")
  /\ (classify lex = TOKEN.else_ <-> lex = str "else")
  /\ (classify lex = TOKEN.tipo <-> In lex RESERVED_TYPES)
  /\ (classify lex = TOKEN.identificador <-> ~ In lex reserved_words).
Proof.
  unfold classify, reserved_words, RESERVED_SINGLE, RESERVED_TYPES, set_mem.
  cbn [dict_get existsb map fst app In orb].
  destruct (text_eqb lex (str "if")) eqn:E1;
    [apply text_eqb_eq in E1; subst; vm_compute; intuition discriminate|].
  destruct (text_eqb lex (str "while")) eqn:E2;
    [apply text_eqb_eq in E2; subst; vm_compute; intuition discriminate|].
  destruct (text_eqb lex (str "return")) eqn:E3;
    [apply text_eqb_eq in E3; subst; vm_compute; intuition discriminate|].
  destruct (text_eqb lex (str "else")) eqn:E4;
    [apply text_eqb_eq in E4; subst; vm_compute; intuition discriminate|].
  destruct (text_eqb lex (str "int")) eqn:E5;
    [apply text_eqb_eq in E5; subst; vm_compute; intuition discriminate|].
  destruct (text_eqb lex (str "float")) eqn:E6;
    [apply text_eqb_eq in E6; subst; vm_compute; intuition discriminate|].
  destruct (text_eqb lex (str "void")) eqn:E7;
    [apply text_eqb_eq in E7; subst; vm_compute; intuition discriminate|].
  apply text_eqb_neq in E1, E2, E3, E4, E5, E6, E7. cbn [orb].
  unfold TOKEN.identificador, TOKEN.if_, TOKEN.while, TOKEN.return_,
    TOKEN.else_, TOKEN.tipo.
  repeat split; try discriminate; try congruence; intuition congruence.
Qed.

Section Identifiers.

Variable isalpha : char -> bool.
Variable isdigit : char -> bool.

(** The token of [_scan_ident_or_reserved] has the code of its lexeme. *)
Lemma scan_ident_classified gas self t self' :
  _scan_ident_or_reserved isalpha isdigit gas self = Ok t self' ->
  tipo t = classify (lexema t).
Proof.
  unfold _scan_ident_or_reserved, ident_tail, bind, this, raise, classify.
  destruct (negb (is_letter isalpha (_peek self 0))); [discriminate|].
  destruct (advance_ok self) as [s1 ->].
  destruct (advance_while _ gas s1) as [u s2|e s2|]; [|discriminate..].
  destruct (dict_get _ _) as [code|] eqn:Ed.
  - unfold ret. intros H. injection H as <- _. cbn [tipo lexema].
    now rewrite Ed.
  - destruct (set_mem _ _) eqn:Em; unfold ret; intros H; injection H as <- _;
      cbn [tipo lexema]; now rewrite Ed, Em.
Qed.

(** X2: the scan of a word gives each reserved word its own code, the three
    type words the code [tipo], and every other word the code
    [identificador]; no reserved word is ever an identifier. *)
Theorem reserved_words_classified gas self t self' :
  _scan_ident_or_reserved isalpha isdigit gas self = Ok t self' ->
  (tipo t = TOKEN.if_ <-> lexema t = str "if")
  /\ (tipo t = TOKEN.while <-> lexema t = str "while")
  /\ (tipo t = TOKEN.return_ <-> lexema t = str "return")
  /\ (tipo t = TOKEN.else_ <-> lexema t = str "else")
  /\ (tipo t = TOKEN.tipo <-> In (lexema t) RESERVED_TYPES)
  /\ (tipo t = TOKEN.identificador <-> ~ In (lexema t) reserved_words).
Proof.
  intros H. rewrite (scan_ident_classified _ _ _ _ H). apply classify_spec.
Qed.

Hypothesis isalpha_NUL : isalpha NUL = false.
Hypothesis isdigit_NUL : isdigit NUL = false.

(** X1: at a letter or underscore, [_scan_ident_or_reserved] consumes the
    longest run of letters, underscores and digits: its lexeme is that run,
    the cursor is left right after it, on a character that continues no
    identifier, and the token has the position of the first character. *)
Theorem scan_ident_maximal gas done c rest :
  is_letter isalpha c = true ->
  length rest < gas ->
  exists t rest',
    _scan_ident_or_reserved isalpha isdigit gas (scanner_at done (c :: rest))
    = Ok t (scanner_at (done ++ lexema t) rest')
    /\ c :: rest = lexema t ++ rest'
    /\ hd NUL (lexema t) = c
    /\ Forall (fun x => ident_char isalpha isdigit x = true) (tl (lexema t))
    /\ ident_char isalpha isdigit (hd NUL rest') = false
    /\ linea t = fst (cursor_after done)
    /\ columna t = snd (cursor_after done).
Proof.
  intros Hc Hgas.
  rewrite (scan_ident_at isalpha isdigit isalpha_NUL isdigit_NUL) by assumption.
  cbv zeta. eexists (mkToken _ _ _ _), _. split; [reflexivity|].
  cbn [lexema linea columna hd tl].
  repeat split.
  - cbn [app]. now rewrite take_drop_while.
  - apply take_while_all.
  - destruct (drop_while _ rest) as [|d r] eqn:E; cbn [hd].
    + apply ident_char_NUL; assumption.
    + eapply drop_while_head. exact E.
Qed.

End Identifiers.

Lemma scan_ident_maximal_witness :
  latin1_isalpha NUL = false /\ latin1_isdigit NUL = false
  /\ is_letter latin1_isalpha 105%N = true
  /\ length (str "ffy;") < 5
  /\ exists t rest',
    _scan_ident_or_reserved latin1_isalpha latin1_isdigit 5
                            (scanner_at [] (105%N :: str "ffy;"))
    = Ok t (scanner_at ([] ++ lexema t) rest')
    /\ 105%N :: str "ffy;" = lexema t ++ rest'
    /\ hd NUL (lexema t) = 105%N
    /\ Forall (fun x => ident_char latin1_isalpha latin1_isdigit x = true)
              (tl (lexema t))
    /\ ident_char latin1_isalpha latin1_isdigit (hd NUL rest') = false
    /\ linea t = fst (cursor_after [])
    /\ columna t = snd (cursor_after []).
Proof.
  split; [reflexivity|]. split; [reflexivity|]. split; [reflexivity|].
  split; [vm_compute; lia|].
  exact (scan_ident_maximal latin1_isalpha latin1_isdigit eq_refl eq_refl
           5 [] 105%N (str "ffy;") eq_refl ltac:(vm_compute; lia)).
Defined.

Lemma reserved_words_classified_witness :
  _scan_ident_or_reserved latin1_isalpha latin1_isdigit 4
    (Lexer.init (str "if(")) = Ok (mkToken TOKEN.if_ (str "if") 1 1)
                                  (scanner_at (str "if") (str "("))
  /\ (TOKEN.if_ = TOKEN.if_ <-> str "if" = str "if").
Proof.
  split; [reflexivity|].
  exact (proj1 (reserved_words_classified latin1_isalpha latin1_isdigit 4
                  (Lexer.init (str "if(")) (mkToken TOKEN.if_ (str "if") 1 1)
                  (scanner_at (str "if") (str "(")) eq_refl)).
Defined.

(** ** What [_skip_whitespace] skips *)

Lemma skip_whitespace_stops gas :
  forall self u self',
    _skip_whitespace gas self = Ok u self' -> at_token_start self' = true.
Proof.
  induction gas as [|gas IH]; intros self u self'; [discriminate|].
  cbn [_skip_whitespace]. unfold bind, this.
  destruct (advance_ok self) as [s1 E1].
  unfold at_token_start, is_space.
  destruct ((_peek self 0 == SPACE) || (_peek self 0 == TAB)
            || (_peek self 0 == CR) || (_peek self 0 == LF)) eqn:Ews.
  { rewrite E1. apply IH. }
  destruct ((_peek self 0 == SLASH) && (_peek self 1 == SLASH)) eqn:Elc.
  { destruct (skip_line_comment (S gas) self) as [v s2|e s2|];
      [apply IH | discriminate..]. }
  destruct ((_peek self 0 == SLASH) && (_peek self 1 == STAR)) eqn:Ebc.
  { rewrite E1. destruct (advance_ok s1) as [s2 ->].
    destruct (skip_block_comment (S gas) s2) as [v s3|e s3|];
      [apply IH | discriminate..]. }
  unfold ret. intros H. injection H as _ <-. rewrite Ews. cbn [negb andb].
  destruct (_peek self 0 == SLASH); [|reflexivity].
  cbn [andb] in Elc, Ebc. now rewrite Elc, Ebc.
Qed.

Lemma skip_whitespace_at_token_start gas self :
  at_token_start self = true -> _skip_whitespace (S gas) self = Ok tt self.
Proof.
  unfold at_token_start, is_space. intros H.
  apply andb_prop in H as [H1 H2]. apply negb_true_iff in H1, H2.
  cbn [_skip_whitespace]. unfold bind, this. rewrite H1.
  destruct (_peek self 0 == SLASH); cbn [andb] in *; [|reflexivity].
  apply orb_false_elim in H2 as [-> ->]. reflexivity.
Qed.

(** X3: when [_skip_whitespace] returns, the current character is no
    whitespace and opens no comment, and skipping again changes nothing. *)
Theorem skip_whitespace_idempotent gas self u self' :
  _skip_whitespace gas self = Ok u self' ->
  at_token_start self' = true
  /\ forall gas', _skip_whitespace (S gas') self' = Ok tt self'.
Proof.
  intros H. apply skip_whitespace_stops in H. split; [assumption|].
  intros gas'. now apply skip_whitespace_at_token_start.
Qed.

Lemma skip_whitespace_idempotent_witness :
  _skip_whitespace 9 (Lexer.init (str "  /*c*/ x"))
  = Ok tt (scanner_at (str "  /*c*/ ") (str "x"))
  /\ at_token_start (scanner_at (str "  /*c*/ ") (str "x")) = true
  /\ forall gas',
      _skip_whitespace (S gas') (scanner_at (str "  /*c*/ ") (str "x"))
      = Ok tt (scanner_at (str "  /*c*/ ") (str "x")).
Proof.
  split; [reflexivity|].
  exact (skip_whitespace_idempotent 9 (Lexer.init (str "  /*c*/ x")) tt
           (scanner_at (str "  /*c*/ ") (str "x")) eq_refl).
Defined.

Lemma at_token_start_at done rest :
  at_token_start (scanner_at done rest) = starts_token rest.
Proof.
  unfold at_token_start, starts_token. rewrite peek0_at, !peek_at.
  now destruct rest as [|a [|b rest]].
Qed.

(** The block comment loop, when it returns, has consumed a body without a
    closing delimiter and then the delimiter. *)
Lemma skip_block_comment_closed :
  forall gas done rest u self',
    length rest < gas ->
    skip_block_comment gas (scanner_at done rest) = Ok u self' ->
    exists body rest',
      rest = body ++ STAR :: SLASH :: rest'
      /\ unclosed body = true
      /\ self' = scanner_at (done ++ body ++ [STAR; SLASH]) rest'.
Proof.
  induction gas as [|gas IH]; intros done rest u self' Hgas; [lia|].
  cbn [skip_block_comment]. unfold bind, this, raise.
  rewrite peek0_at.
  destruct rest as [|ch rest]; cbn [hd]; [discriminate|].
  simpl in Hgas. rewrite peek1_cons.
  destruct (ceq_spec ch NUL) as [->|Hnul]; [discriminate|].
  destruct ((ch == STAR) && (hd NUL rest == SLASH)) eqn:Ec.
  - apply andb_prop in Ec as [E1 E2]. apply ceq_eq in E1, E2. subst ch.
    destruct rest as [|d rest]; [discriminate|]. cbn [hd] in E2. subst d.
    rewrite !advance_at. unfold ret. intros H. injection H as _ <-.
    exists [], rest. cbn [app]. repeat split. now rewrite <- app_assoc.
  - rewrite advance_at. intros H.
    apply IH in H as (body & rest' & -> & Hu & ->); [|lia].
    exists (ch :: body), rest'. cbn [app unclosed]. repeat split.
    + rewrite Hu, andb_true_r. apply ceq_neq in Hnul. rewrite Hnul. cbn [negb andb].
      destruct body as [|b body]; cbn [hd app] in *.
      * destruct (ch == STAR); reflexivity.
      * now rewrite Ec.
    + now rewrite <- !app_assoc.
Qed.

Lemma skip_whitespace_skipped :
  forall gas done rest u self',
    length rest < gas ->
    _skip_whitespace gas (scanner_at done rest) = Ok u self' ->
    exists w rest',
      rest = w ++ rest' /\ skips w rest'
      /\ self' = scanner_at (done ++ w) rest'.
Proof.
  induction gas as [|gas IH]; intros done rest u self' Hgas; [lia|].
  cbn [_skip_whitespace]. unfold bind, this. rewrite peek0_at.
  destruct rest as [|ch rest]; cbn [hd].
  { cbn. unfold ret. intros H. injection H as _ <-. exists [], [].
    split; [reflexivity|]. split; [now apply skips_nil|].
    now rewrite app_nil_r. }
  simpl in Hgas. rewrite peek1_cons.
  destruct ((ch == SPACE) || (ch == TAB) || (ch == CR) || (ch == LF)) eqn:Ews.
  { rewrite advance_at. intros H.
    apply IH in H as (w & rest' & -> & Hw & ->); [|lia].
    exists (ch :: w), rest'. cbn [app]. repeat split.
    - now apply skips_space.
    - now rewrite <- app_assoc. }
  destruct ((ch == SLASH) && (hd NUL rest == SLASH)) eqn:Elc.
  { apply andb_prop in Elc as [E1 E2]. apply ceq_eq in E1, E2. subst ch.
    destruct rest as [|d rest]; [discriminate|]. cbn [hd] in E2. subst d.
    unfold skip_line_comment. fold not_eol. simpl in Hgas.
    rewrite (advance_while_at not_eol eq_refl) by (simpl; lia).
    replace (take_while not_eol (SLASH :: SLASH :: rest))
      with (SLASH :: SLASH :: take_while not_eol rest) by reflexivity.
    replace (drop_while not_eol (SLASH :: SLASH :: rest))
      with (drop_while not_eol rest) by reflexivity.
    pose proof (drop_while_length not_eol rest) as Hlen.
    pose proof (take_drop_while not_eol rest) as Hsplit.
    intros H. apply IH in H as (w & rest' & Hr & Hw & ->); [|simpl in Hgas; lia].
    exists (SLASH :: SLASH :: take_while not_eol rest ++ w), rest'.
    repeat split.
    - cbn [app]. rewrite <- app_assoc, <- Hr, Hsplit. reflexivity.
    - apply skips_line; [apply take_while_all| |assumption].
      rewrite <- Hr. destruct (drop_while not_eol rest) as [|x r] eqn:E;
        [reflexivity|]. cbn [hd]. eapply drop_while_head. exact E.
    - apply scanner_at_eq; [|reflexivity]. now rewrite <- !app_assoc. }
  destruct ((ch == SLASH) && (hd NUL rest == STAR)) eqn:Ebc.
  { apply andb_prop in Ebc as [E1 E2]. apply ceq_eq in E1, E2. subst ch.
    destruct rest as [|d rest]; [discriminate|]. cbn [hd] in E2. subst d.
    rewrite !advance_at. simpl in Hgas.
    destruct (skip_block_comment (S gas) _) as [v s1|e s1|] eqn:Eb;
      [|discriminate..].
    apply skip_block_comment_closed in Eb as (body & r1 & -> & Hu & ->); [|lia].
    intros H. apply IH in H as (w & rest' & -> & Hw & ->);
      [|rewrite length_app in Hgas; simpl in Hgas; lia].
    exists (SLASH :: STAR :: body ++ STAR :: SLASH :: w), rest'.
    repeat split.
    - cbn [app]. now rewrite <- app_assoc.
    - now apply skips_block.
    - apply scanner_at_eq; [|reflexivity]. rewrite <- !app_assoc. reflexivity. }
  unfold ret. intros H. injection H as _ <-. exists [], (ch :: rest).
  split; [reflexivity|]. split; [|now rewrite app_nil_r]. apply skips_nil.
  unfold starts_token, is_space. cbn [hd tl]. rewrite Ews. cbn [negb andb].
  destruct (ch == SLASH); [|reflexivity]. cbn [andb] in Elc, Ebc.
  now rewrite Elc, Ebc.
Qed.

(** X4: the text that [_skip_whitespace] consumes before it returns is made
    of whitespace characters, line comments that run to the end of their line
    (the newline is no part of them) and block comments closed by the first
    closing delimiter after their opening; it stops at a character that is
    none of these. *)
Theorem skip_whitespace_sound (gas : nat) (done rest : text) (u : unit)
  (self' : Lexer) :
  length rest < gas ->
  _skip_whitespace gas (scanner_at done rest) = Ok u self' ->
  exists w rest',
    rest = w ++ rest' /\ skips w rest'
    /\ self' = scanner_at (done ++ w) rest'.
Proof.
  intros Hgas H.
  destruct (skip_whitespace_skipped gas done rest u self' Hgas H)
    as (w & rest' & Hrest & Hskips & Hself).
  exists w, rest'. split; [exact Hrest|]. split; [exact Hskips|exact Hself].
Qed.

Lemma skip_whitespace_sound_witness :
  length (str " //c" ++ LF :: str "x") < 7
  /\ _skip_whitespace 7 (scanner_at [] (str " //c" ++ LF :: str "x"))
     = Ok tt (scanner_at (str " //c" ++ [LF]) (str "x"))
  /\ exists w rest',
      str " //c" ++ LF :: str "x" = w ++ rest' /\ skips w rest'
      /\ scanner_at (str " //c" ++ [LF]) (str "x") = scanner_at ([] ++ w) rest'.
Proof.
  split; [vm_compute; lia|]. split; [reflexivity|].
  exact (skip_whitespace_sound 7 [] (str " //c" ++ LF :: str "x") tt
           (scanner_at (str " //c" ++ [LF]) (str "x"))
           ltac:(vm_compute; lia) eq_refl).
Defined.

Lemma skip_block_comment_closes :
  forall body gas done rest,
    unclosed body = true ->
    length body + 1 < gas ->
    skip_block_comment gas (scanner_at done (body ++ STAR :: SLASH :: rest))
    = Ok tt (scanner_at (done ++ body ++ [STAR; SLASH]) rest).
Proof.
  induction body as [|c body IH]; intros gas done rest Hu Hgas;
    (destruct gas as [|gas]; [lia|]);
    cbn [skip_block_comment app]; unfold bind, this, raise, ret.
  - rewrite peek0_cons, peek1_cons. cbn [hd].
    cbn [ceq N.eqb STAR SLASH NUL Pos.eqb andb]. rewrite !advance_at.
    now rewrite <- !app_assoc.
  - cbn [unclosed] in Hu. apply andb_prop in Hu as [Hu Hrest].
    apply andb_prop in Hu as [H1 H2]. apply negb_true_iff in H1, H2.
    rewrite peek0_cons, peek1_cons, H1.
    replace ((c == STAR) && (hd NUL (body ++ STAR :: SLASH :: rest) == SLASH))
      with false.
    + rewrite advance_at, IH by (assumption || (simpl in Hgas; lia)).
      now rewrite <- !app_assoc.
    + symmetry. destruct body as [|b body]; cbn [hd app] in *; [|assumption].
      now rewrite andb_false_r.
Qed.

Lemma skip_whitespace_space gas done c rest :
  is_space c = true ->
  _skip_whitespace (S gas) (scanner_at done (c :: rest))
  = _skip_whitespace gas (scanner_at (done ++ [c]) rest).
Proof.
  unfold is_space. intros H. cbn [_skip_whitespace]. unfold bind, this.
  now rewrite peek0_cons, H, advance_at.
Qed.

(** Skipping what [skips] describes takes a round of the loop for each
    character at most. *)
Lemma skip_whitespace_skips w rest :
  skips w rest ->
  forall gas done,
    length w < gas ->
    _skip_whitespace gas (scanner_at done (w ++ rest))
    = Ok tt (scanner_at (done ++ w) rest).
Proof.
  induction 1 as [rest Hs|c w rest Hc Hw IH|body w rest Hb He Hw IH
                 |body w rest Hu Hw IH];
    intros gas done Hgas; (destruct gas as [|gas]; [lia|]).
  - cbn [app]. rewrite skip_whitespace_at_token_start
      by now rewrite at_token_start_at.
    now rewrite app_nil_r.
  - cbn [app]. rewrite skip_whitespace_space by assumption.
    rewrite IH by (simpl in Hgas; lia). now rewrite <- app_assoc.
  - cbn [_skip_whitespace app]. unfold bind, this.
    rewrite peek0_cons, peek1_cons. cbn [hd].
    cbn [ceq N.eqb SLASH SPACE TAB CR LF Pos.eqb orb andb].
    unfold skip_line_comment. fold not_eol.
    assert (Hloop : forall x gas0 d,
               Forall (fun c => not_eol c = true) x ->
               length x < gas0 ->
               advance_while not_eol gas0 (scanner_at d (x ++ w ++ rest))
               = Ok tt (scanner_at (d ++ x) (w ++ rest))).
    { intros x. induction x as [|a x IHx]; intros gas0 d Hx Hg;
        (destruct gas0 as [|gas0]; [simpl in Hg; lia|]).
      - cbn [app]. rewrite advance_while_stop by assumption.
        now rewrite app_nil_r.
      - inversion Hx as [|? ? Ha Hx']; subst. cbn [app].
        rewrite advance_while_step by assumption.
        rewrite IHx by (assumption || (simpl in Hg; lia)).
        now rewrite <- app_assoc. }
    rewrite <- app_assoc.
    change (SLASH :: SLASH :: body ++ w ++ rest)
      with ((SLASH :: SLASH :: body) ++ w ++ rest).
    rewrite (Hloop (SLASH :: SLASH :: body) (S gas) done)
      by ((repeat constructor; assumption)
          || (simpl in Hgas |- *; rewrite length_app in Hgas; lia)).
    rewrite IH by (simpl in Hgas; rewrite length_app in Hgas; lia).
    apply f_equal, scanner_at_eq; [|reflexivity].
    rewrite <- !app_assoc. reflexivity.
  - cbn [app]. rewrite <- app_assoc. cbn [_skip_whitespace app].
    unfold bind, this.
    rewrite peek0_cons, peek1_cons. cbn [hd].
    cbn [ceq N.eqb SLASH SPACE TAB CR LF STAR Pos.eqb orb andb].
    rewrite !advance_at.
    simpl in Hgas. rewrite length_app in Hgas. simpl in Hgas.
    rewrite skip_block_comment_closes by (assumption || lia).
    rewrite IH by lia.
    apply f_equal, scanner_at_eq; [|reflexivity].
    rewrite <- !app_assoc. reflexivity.
Qed.

(** X5: whitespace, line comments up to the end of their line and block
    comments closed by their first closing delimiter are skipped whole, up
    to the first character that is none of them.  Block comments do not
    nest: what follows the first closing delimiter is scanned again, even
    when the comment holds another opening delimiter. *)
Theorem skip_whitespace_complete (gas : nat) (done w rest : text) :
  skips w rest ->
  length w < gas ->
  _skip_whitespace gas (scanner_at done (w ++ rest))
  = Ok tt (scanner_at (done ++ w) rest)
  /\ tokens_latin1 (str "/* a /* b */ c */")
     = ([mkToken TOKEN.identificador (str "c") 1 14;
         mkToken TOKEN.opMul (str "*") 1 16;
         mkToken TOKEN.opMul (str "/") 1 17;
         mkToken TOKEN.eof (str "$") 1 18], Finished).
Proof.
  intros Hs Hgas. split; [now apply skip_whitespace_skips | reflexivity].
Qed.

Lemma skip_whitespace_complete_witness :
  skips (str "/* /* */ ") (str "x")
  /\ length (str "/* /* */ ") < 10
  /\ _skip_whitespace 10 (scanner_at [] (str "/* /* */ " ++ str "x"))
     = Ok tt (scanner_at ([] ++ str "/* /* */ ") (str "x")).
Proof.
  assert (Hs : skips (str "/* /* */ ") (str "x")).
  { apply (skips_block (str " /* ") [SPACE] (str "x") eq_refl).
    apply skips_space; [reflexivity|]. apply skips_nil. reflexivity. }
  split; [exact Hs|]. split; [vm_compute; lia|].
  exact (proj1 (skip_whitespace_complete 10 [] (str "/* /* */ ") (str "x") Hs
                  ltac:(vm_compute; lia))).
Defined.

(** ** The lexemes of the tokens *)

Lemma classify_cases lex :
  (classify lex = TOKEN.if_ /\ lex = str "if")
  \/ (classify lex = TOKEN.while /\ lex = str "while")
  \/ (classify lex = TOKEN.return_ /\ lex = str "return")
  \/ (classify lex = TOKEN.else_ /\ lex = str "else")
  \/ (classify lex = TOKEN.tipo /\ In lex RESERVED_TYPES)
  \/ (classify lex = TOKEN.identificador /\ ~ In lex reserved_words).
Proof.
  destruct (classify_spec lex) as (H1 & H2 & H3 & H4 & H5 & H6).
  unfold classify in *.
  destruct (dict_get RESERVED_SINGLE lex) as [code|] eqn:Ed.
  - unfold RESERVED_SINGLE in Ed. cbn [dict_get] in Ed.
    repeat match type of Ed with
           | (if ?b then _ else _) = _ => destruct b
           end; try discriminate; injection Ed as <-; tauto.
  - destruct (set_mem RESERVED_TYPES lex); tauto.
Qed.

Section Lexemes.

Variable isalpha : char -> bool.
Variable isdigit : char -> bool.

(** In Python, ["\0".isalpha()] and ["\0".isdigit()] are [False]. *)
Hypothesis isalpha_NUL : isalpha NUL = false.
Hypothesis isdigit_NUL : isdigit NUL = false.

Lemma scan_ident_ok gas done c rest t self' :
  is_letter isalpha c = true ->
  length rest < gas ->
  _scan_ident_or_reserved isalpha isdigit gas (scanner_at done (c :: rest))
  = Ok t self' ->
  token_ok isalpha isdigit t.
Proof.
  intros Hc Hgas.
  rewrite (scan_ident_at isalpha isdigit isalpha_NUL isdigit_NUL) by assumption.
  cbv zeta. intros H. injection H as <- _. unfold token_ok. cbn [tipo lexema].
  destruct (classify_cases (c :: take_while (ident_char isalpha isdigit) rest))
    as [[-> H]|[[-> H]|[[-> H]|[[-> H]|[[-> H]|[-> H]]]]]]; cbn; try exact H.
  repeat split; [discriminate | assumption | apply take_while_all | exact H].
Qed.

Lemma scan_number_ok gas done c rest t self' :
  isdigit c = true ->
  length (c :: rest) < gas ->
  _scan_number isdigit gas (scanner_at done (c :: rest)) = Ok t self' ->
  token_ok isalpha isdigit t.
Proof.
  intros Hc Hgas. rewrite (scan_number_at isdigit isdigit_NUL) by assumption.
  unfold number_spec.
  assert (Hne : take_while isdigit (c :: rest) <> [])
    by (simpl; rewrite Hc; discriminate).
  destruct ((hd NUL (drop_while isdigit (c :: rest)) == DOT) && _) eqn:Ec.
  - apply andb_prop in Ec as [E1 E2].
    destruct (drop_while isdigit (c :: rest)) as [|d [|d2 r2]] eqn:Er1;
      cbn [hd tl nth] in *; try (rewrite isdigit_NUL in E2; discriminate).
    apply ceq_eq in E1. subst d.
    intros H. injection H as <- _. unfold token_ok.
    cbn [tipo lexema lexeme_of_code TOKEN.real].
    exists (take_while isdigit (c :: rest)), (take_while isdigit (d2 :: r2)).
    split; [reflexivity|]. split; [assumption|].
    split; [cbn [take_while]; rewrite E2; discriminate|].
    split; [exact (take_while_all isdigit (c :: rest))
           | exact (take_while_all isdigit (d2 :: r2))].
  - intros H. injection H as <- _. unfold token_ok.
    cbn [tipo lexema lexeme_of_code TOKEN.entero].
    split; [assumption | exact (take_while_all isdigit (c :: rest))].
Qed.

Lemma scan_token_ok gas done rest t ctl self' :
  length rest < gas ->
  scan_token isalpha isdigit gas (scanner_at done rest) = Ok (t, ctl) self' ->
  token_ok isalpha isdigit t.
Proof.
  intros Hgas. unfold scan_token, bind, this. rewrite peek0_at.
  destruct rest as [|ch rest]; cbn [hd].
  { cbn. unfold ret. intros H. injection H as <- _ _. reflexivity. }
  simpl in Hgas. rewrite peek1_cons.
  destruct (ceq_spec ch NUL) as [->|Hnul].
  { cbn. unfold ret. intros H. injection H as <- _ _. reflexivity. }
  destruct (isalpha ch || (ch == UNDERSCORE)) eqn:Ea.
  { destruct (_scan_ident_or_reserved _ _ _ _) as [t0 s0|e s0|] eqn:Ei;
      [|discriminate..].
    unfold ret. intros H. injection H as <- _ _.
    eapply scan_ident_ok; [exact Ea| |exact Ei]. lia. }
  destruct (isdigit ch) eqn:Ed.
  { destruct (_scan_number _ _ _) as [t0 s0|e s0|] eqn:Ei; [|discriminate..].
    unfold ret. intros H. injection H as <- _ _.
    eapply scan_number_ok; [exact Ed| |exact Ei]. simpl. lia. }
  destruct (ceq_spec ch DQUOTE) as [->|Hdq].
  { pose proof (scan_string_at gas done DQUOTE rest ltac:(lia)) as Hs.
    destruct (_scan_string gas _) as [t0 s0|e s0|]; [|discriminate..].
    destruct Hs as (body & rest' & _ & Hb & _ & ->).
    unfold ret. intros H. injection H as <- _ _. exact Hb. }
  repeat lazymatch goal with
  | |- context [if (ch == ?c) && (hd NUL rest == ?d) then _ else _] =>
      destruct ((ch == c) && (hd NUL rest == d)) eqn:E;
      [ apply andb_prop in E as [E1 E2]; apply ceq_eq in E1, E2; subst ch;
        destruct rest as [|d' rest]; [discriminate|]; cbn [hd] in E2; subst d';
        rewrite !advance_at; unfold ret; intros H; injection H as <- _ _;
        cbn; tauto
      | clear E ]
  end.
  rewrite advance_at.
  repeat lazymatch goal with
  | |- context [if ?b then _ else _] =>
      destruct b eqn:E;
      [ unfold ret; intros H; injection H as <- _ _; unfold token_ok; cbn;
        repeat (apply orb_prop in E as [E|E]); apply ceq_eq in E; subst ch;
        cbn; tauto
      | clear E ]
  end.
  discriminate.
Qed.

Lemma tokens_loop_ok gas :
  forall done rest,
    length rest < gas ->
    Forall (token_ok isalpha isdigit)
           (fst (fst (tokens_loop isalpha isdigit gas (scanner_at done rest)))).
Proof.
  induction gas as [|gas IH]; intros done rest Hgas; [lia|].
  cbn [tokens_loop]. unfold next_token, bind.
  pose proof (skip_whitespace_at (S gas) done rest Hgas) as Hs.
  destruct (_skip_whitespace (S gas) (scanner_at done rest))
    as [u s1|e s1|]; [|constructor..].
  apply skip_outcome_length in Hs as (w & rest1 & -> & -> & Hlen).
  rewrite length_app in Hgas.
  pose proof (scan_token_at isalpha isdigit isalpha_NUL isdigit_NUL
                (S gas) (done ++ w) rest1 ltac:(lia)) as Ht.
  destruct (scan_token isalpha isdigit (S gas) (scanner_at (done ++ w) rest1))
    as [[t ctl] s2|e s2|] eqn:Es; [|constructor..].
  apply scan_token_ok in Es; [|lia].
  destruct ctl.
  - destruct Ht as (x & rest2 & -> & Hx & -> & _).
    assert (Hx' : length x <> 0) by (destruct x; [contradiction|discriminate]).
    specialize (IH ((done ++ w) ++ x) rest2
                   ltac:(rewrite length_app in Hgas; lia)).
    destruct (tokens_loop isalpha isdigit gas _) as [[ts e] final].
    cbn [fst] in *. now constructor.
  - cbn [fst]. now repeat constructor.
Qed.

(** X6: every token of a scan has a lexeme of the shape of its code: an
    identifier starts with a letter or underscore, goes on with letters,
    underscores and digits and is no reserved word; an integer is a run of
    digits, a real two runs of digits around one dot, a string literal a
    content of plain characters and escaped pairs; a reserved word, an
    operator or a punctuation mark is one of the texts of its code, and the
    end marker is "$".  No token has a code outside the table. *)
Theorem tokens_well_formed (fuente : text) :
  Forall (token_ok isalpha isdigit) (fst (tokens isalpha isdigit fuente)).
Proof.
  unfold tokens, run. rewrite init_scanner_at. apply tokens_loop_ok. lia.
Qed.

End Lexemes.

Lemma tokens_well_formed_witness :
  latin1_isalpha NUL = false /\ latin1_isdigit NUL = false
  /\ Forall (token_ok latin1_isalpha latin1_isdigit)
            (fst (tokens latin1_isalpha latin1_isdigit
                         (str "while (x1 <= 2.5) { y = x1 - 1; }"))).
Proof.
  split; [reflexivity|]. split; [reflexivity|].
  exact (tokens_well_formed latin1_isalpha latin1_isdigit eq_refl eq_refl
           (str "while (x1 <= 2.5) { y = x1 - 1; }")).
Defined.

(** ** The order and the number of the tokens *)

Lemma before_app done x :
  x <> [] -> before (cursor_after done) (cursor_after (done ++ x)).
Proof.
  destruct x as [|c x]; [contradiction|]. intros _.
  unfold cursor_after. rewrite fold_left_app. cbn [fold_left].
  apply before_fold.
Qed.

Lemma cursor_after_app_le done x :
  cursor_after (done ++ x) = cursor_after done
  \/ before (cursor_after done) (cursor_after (done ++ x)).
Proof.
  destruct x as [|c x]; [left; now rewrite app_nil_r|].
  right. now apply before_app.
Qed.

Lemma at_or_after_trans (a b c : nat * nat) :
  b = a \/ before a b -> c = b \/ before b c -> c = a \/ before a c.
Proof.
  intros [->|H1] [->|H2]; auto. right. eapply before_trans; eassumption.
Qed.

Lemma run_spec_one_based done rest ps e final :
  run_spec done rest ps e final ->
  Forall (fun t => 1 <= linea t /\ 1 <= columna t) (yielded ps).
Proof.
  induction 1 as [done w rest' Hhd
                 |done w x rest' t ps e final Hx Hsrc Hk Hl Hc Hrun IH
                 |done w rest' e|done w x rest' e];
    cbn [yielded]; repeat constructor; try assumption;
    rewrite ?Hl, ?Hc; cbn [eof_token linea columna];
    rewrite cursor_after_spec; cbn [fst snd]; lia.
Qed.

Lemma run_spec_sorted done rest ps e final :
  run_spec done rest ps e final ->
  StronglySorted starts_before (yielded ps)
  /\ Forall (fun t => position t = cursor_after done
                      \/ before (cursor_after done) (position t))
            (yielded ps)
  /\ length (yielded ps) <= length rest + 1.
Proof.
  induction 1 as [done w rest' Hhd
                 |done w x rest' t ps e final Hx Hsrc Hk Hl Hc Hrun IH
                 |done w rest' e|done w x rest' e];
    cbn [yielded].
  - split; [repeat constructor|]. split; [|cbn [length]; lia].
    constructor; [|constructor].
    unfold position, eof_token. cbn [linea columna].
    rewrite <- surjective_pairing. apply cursor_after_app_le.
  - destruct IH as (Hs & Ha & Hn).
    assert (Hpos : position t = cursor_after (done ++ w))
      by (unfold position; rewrite Hl, Hc; now rewrite <- surjective_pairing).
    assert (Hstrict : before (cursor_after (done ++ w))
                             (cursor_after (done ++ w ++ x)))
      by (rewrite app_assoc; now apply before_app).
    split; [|split].
    + constructor; [assumption|].
      eapply Forall_impl; [|exact Ha]. intros t' [H|H];
        unfold starts_before; rewrite Hpos.
      * now rewrite H.
      * eapply before_trans; eassumption.
    + constructor.
      * rewrite Hpos. apply cursor_after_app_le.
      * eapply Forall_impl; [|exact Ha]. intros t' H'.
        eapply at_or_after_trans; [|exact H']. apply cursor_after_app_le.
    + cbn [length]. rewrite !length_app.
      assert (length x <> 0) by (destruct x; [contradiction|discriminate]).
      lia.
  - repeat split; [constructor | constructor | cbn [length]; lia].
  - repeat split; [constructor | constructor | cbn [length]; lia].
Qed.

Section Order.

Variable isalpha : char -> bool.
Variable isdigit : char -> bool.

(** In Python, ["\0".isalpha()] and ["\0".isdigit()] are [False]. *)
Hypothesis isalpha_NUL : isalpha NUL = false.
Hypothesis isdigit_NUL : isdigit NUL = false.

(** X7: the tokens of a scan come in source order: each one starts, by line
    and then by column, strictly before all the tokens after it, and lines
    and columns count from 1. *)
Theorem tokens_in_source_order (fuente : text) :
  StronglySorted starts_before (fst (tokens isalpha isdigit fuente))
  /\ Forall (fun t => 1 <= linea t /\ 1 <= columna t)
            (fst (tokens isalpha isdigit fuente)).
Proof.
  unfold tokens. rewrite run_trace.
  destruct (trace_run isalpha isdigit isalpha_NUL isdigit_NUL fuente)
    as (ps & e & final & -> & Hrun). cbn [fst].
  destruct (run_spec_sorted _ _ _ _ _ Hrun) as (Hs & _ & _).
  split; [assumption|]. apply (run_spec_one_based _ _ _ _ _ Hrun).
Qed.

(** X8: a scan yields at most one token for each character of the text and
    one more, leaves the text as it was and its cursor within it. *)
Theorem tokens_bounded (fuente : text) :
  length (fst (tokens isalpha isdigit fuente)) <= length fuente + 1
  /\ Lexer.fuente (snd (run isalpha isdigit fuente)) = fuente
  /\ Lexer.i (snd (run isalpha isdigit fuente)) <= length fuente.
Proof.
  destruct (run_settles isalpha isdigit isalpha_NUL isdigit_NUL fuente)
    as (_ & Hi & Hf).
  split; [|now split].
  unfold tokens. rewrite run_trace.
  destruct (trace_run isalpha isdigit isalpha_NUL isdigit_NUL fuente)
    as (ps & e & final & -> & Hrun). cbn [fst].
  apply (run_spec_sorted _ _ _ _ _ Hrun).
Qed.

End Order.

Lemma tokens_in_source_order_witness :
  latin1_isalpha NUL = false /\ latin1_isdigit NUL = false
  /\ StronglySorted starts_before
       (fst (tokens latin1_isalpha latin1_isdigit (str "a" ++ LF :: str "b c")))
  /\ Forall (fun t => 1 <= linea t /\ 1 <= columna t)
       (fst (tokens latin1_isalpha latin1_isdigit (str "a" ++ LF :: str "b c"))).
Proof.
  split; [reflexivity|]. split; [reflexivity|].
  exact (tokens_in_source_order latin1_isalpha latin1_isdigit eq_refl eq_refl
           (str "a" ++ LF :: str "b c")).
Defined.

Lemma tokens_bounded_witness :
  latin1_isalpha NUL = false /\ latin1_isdigit NUL = false
  /\ length (fst (tokens latin1_isalpha latin1_isdigit (str "a+b")))
     <= length (str "a+b") + 1
  /\ Lexer.fuente (snd (run latin1_isalpha latin1_isdigit (str "a+b")))
     = str "a+b"
  /\ Lexer.i (snd (run latin1_isalpha latin1_isdigit (str "a+b")))
     <= length (str "a+b").
Proof.
  split; [reflexivity|]. split; [reflexivity|].
  exact (tokens_bounded latin1_isalpha latin1_isdigit eq_refl eq_refl
           (str "a+b")).
Defined.

(** ** A newline in a string literal *)

Lemma string_body_newline body (Hbody : str_content body) :
  forall gas pre b0 rest l c,
    length body < gas ->
    string_body gas (length pre) l c
                (scanner_at (pre ++ b0) (body ++ LF :: rest))
    = Raise (LexerError SaltoDeLineaEnCadena
                        (fst (cursor_after (pre ++ b0 ++ body)))
                        (snd (cursor_after (pre ++ b0 ++ body))))
            (scanner_at (pre ++ b0 ++ body) (LF :: rest)).
Proof.
  induction Hbody as [|ch body H1 H2 H3 H4 Hb IH|ch body H1 Hb IH];
    intros gas pre b0 rest l c Hgas;
    (destruct gas as [|gas]; [simpl in Hgas; lia|]); simpl in Hgas.
  - cbn [app string_body]. unfold bind, this, raise. rewrite peek0_cons.
    cbn [ceq N.eqb LF NUL Pos.eqb]. rewrite !app_nil_r. reflexivity.
  - cbn [app]. rewrite string_body_plain by assumption.
    reshape_at (pre ++ b0 ++ [ch]). rewrite IH by lia.
    now rewrite <- !app_assoc.
  - cbn [app]. rewrite string_body_escape by assumption.
    destruct gas as [|gas]; [lia|].
    reshape_at (pre ++ b0 ++ [BACKSLASH; ch]).
    rewrite (IH (S gas)) by lia.
    now rewrite <- !app_assoc.
Qed.

Lemma string_body_raises gas si l0 c0 :
  forall self msg l c self',
    string_body gas si l0 c0 self = Raise (LexerError msg l c) self' ->
    (msg = CadenaSinCerrar /\ l = l0 /\ c = c0 /\ _peek self' 0 = NUL)
    \/ (msg = SaltoDeLineaEnCadena /\ l = Lexer.linea self'
        /\ c = Lexer.columna self' /\ _peek self' 0 = LF).
Proof.
  induction gas as [|gas IH]; intros self msg l c self'; [discriminate|].
  cbn [string_body]. unfold bind, this, raise, ret.
  destruct (ceq_spec (_peek self 0) NUL) as [E0|_].
  { intros H. injection H as <- <- <- <-. left. auto. }
  destruct (ceq_spec (_peek self 0) LF) as [E1|_].
  { intros H. injection H as <- <- <- <-. right. auto. }
  destruct (advance_ok self) as [s1 E].
  destruct (_peek self 0 == DQUOTE); [rewrite E; discriminate|].
  destruct (_peek self 0 == BACKSLASH); rewrite E; [|apply IH].
  destruct (negb (_peek s1 0 == NUL)); [|apply IH].
  destruct (advance_ok s1) as [s2 ->]. apply IH.
Qed.



(** ** Operators *)

Section Operators.

Variable isalpha : char -> bool.
Variable isdigit : char -> bool.

(** No operator character is a letter or a digit for Python. *)
Hypothesis operators_unclassified :
  forall c, In c operator_chars -> isalpha c = false /\ isdigit c = false.

Lemma operator_dispatch c :
  In c operator_chars ->
  (c == NUL) = false /\ isalpha c || (c == UNDERSCORE) = false
  /\ isdigit c = false /\ (c == DQUOTE) = false.
Proof.
  intros Hc. destruct (operators_unclassified c Hc) as [-> ->].
  cbn [In operator_chars] in Hc.
  repeat (destruct Hc as [<-|Hc]; [repeat split; reflexivity|]).
  contradiction.
Qed.

(** X10: operators are matched longest first: where two characters form
    one of the six operators of two characters, they are one token of that
    operator; a character that is an operator or a punctuation mark by
    itself, and does not start such a pair there, is a token of one
    character; a single [&] or [|] is the error of an unexpected symbol. *)
Theorem operators_longest_match (gas : nat) (done rest : text) :
  (forall c d k,
      In (c, d, k) two_char_operators ->
      scan_token isalpha isdigit gas (scanner_at done (c :: d :: rest))
      = Ok (mkToken k [c; d] (fst (cursor_after done)) (snd (cursor_after done)),
            Continue)
           (scanner_at (done ++ [c; d]) rest))
  /\ (forall c k,
        In (c, k) one_char_operators ->
        two_char_start c (hd NUL rest) = false ->
        scan_token isalpha isdigit gas (scanner_at done (c :: rest))
        = Ok (mkToken k [c] (fst (cursor_after done)) (snd (cursor_after done)),
              Continue)
             (scanner_at (done ++ [c]) rest))
  /\ (forall c,
        In c [AMP; PIPE] ->
        two_char_start c (hd NUL rest) = false ->
        scan_token isalpha isdigit gas (scanner_at done (c :: rest))
        = Raise (LexerError (SimboloInesperado c)
                            (fst (cursor_after done)) (snd (cursor_after done)))
                (scanner_at (done ++ [c]) rest)).
Proof.
  split; [|split].
  - intros c d k Hin.
    assert (Hc : In c operator_chars)
      by (cbn [In two_char_operators] in Hin;
          repeat (destruct Hin as [Hin|Hin];
                  [injection Hin as <- <- <-; cbn; tauto|]);
          contradiction).
    destruct (operator_dispatch c Hc) as (H0 & Ha & Hd & Hq).
    unfold scan_token, bind, this. rewrite peek0_cons, peek1_cons, H0, Ha, Hd, Hq.
    cbn [hd In two_char_operators] in *.
    repeat (destruct Hin as [Hin|Hin];
            [injection Hin as <- <- <-;
             cbn [ceq N.eqb Pos.eqb andb EQUALS BANG LT GT AMP PIPE];
             rewrite !advance_at, <- app_assoc; reflexivity|]).
    contradiction.
  - intros c k Hin H2.
    assert (Hc : In c operator_chars)
      by (cbn [In one_char_operators] in Hin;
          repeat (destruct Hin as [Hin|Hin];
                  [injection Hin as <- <-; cbn; tauto|]);
          contradiction).
    destruct (operator_dispatch c Hc) as (H0 & Ha & Hd & Hq).
    unfold scan_token, bind, this. rewrite peek0_cons, peek1_cons, H0, Ha, Hd, Hq.
    unfold two_char_start in H2. cbn [existsb two_char_operators] in H2.
    repeat (apply orb_false_elim in H2 as [?E H2]).
    rewrite E, E0, E1, E2, E3, E4. rewrite advance_at.
    cbn [In one_char_operators] in Hin.
    repeat (destruct Hin as [Hin|Hin];
            [injection Hin as <- <-; reflexivity|]).
    contradiction.
  - intros c Hin H2.
    assert (Hc : In c operator_chars)
      by (cbn [In] in Hin; destruct Hin as [<-|[<-|[]]]; cbn; tauto).
    destruct (operator_dispatch c Hc) as (H0 & Ha & Hd & Hq).
    unfold scan_token, bind, this. rewrite peek0_cons, peek1_cons, H0, Ha, Hd, Hq.
    unfold two_char_start in H2. cbn [existsb two_char_operators] in H2.
    repeat (apply orb_false_elim in H2 as [?E H2]).
    rewrite E, E0, E1, E2, E3, E4. rewrite advance_at.
    cbn [In] in Hin. destruct Hin as [<-|[<-|[]]]; reflexivity.
Qed.

End Operators.

Lemma operators_unclassified_latin1 :
  forall c, In c operator_chars ->
            latin1_isalpha c = false /\ latin1_isdigit c = false.
Proof.
  intros c Hc. cbn [In operator_chars] in Hc.
  repeat (destruct Hc as [<-|Hc]; [split; reflexivity|]). contradiction.
Qed.

Lemma operators_longest_match_witness :
  (forall c, In c operator_chars ->
             latin1_isalpha c = false /\ latin1_isdigit c = false)
  /\ In (LT, EQUALS, TOKEN.opRelac) two_char_operators
  /\ scan_token latin1_isalpha latin1_isdigit 1
       (scanner_at (str "a") (LT :: EQUALS :: str "b"))
     = Ok (mkToken TOKEN.opRelac [LT; EQUALS] 1 2, Continue)
          (scanner_at (str "a" ++ [LT; EQUALS]) (str "b")).
Proof.
  split; [exact operators_unclassified_latin1|]. split; [cbn; tauto|].
  exact (proj1 (operators_longest_match latin1_isalpha latin1_isdigit
                  operators_unclassified_latin1 1 (str "a") (str "b"))
               LT EQUALS TOKEN.opRelac ltac:(cbn; tauto)).
Defined.

(** ** Where the errors point *)

Section ErrorPositions.

Variable isalpha : char -> bool.
Variable isdigit : char -> bool.

(** In Python, ["\0".isalpha()] and ["\0".isdigit()] are [False]. *)
Hypothesis isalpha_NUL : isalpha NUL = false.
Hypothesis isdigit_NUL : isdigit NUL = false.

Lemma scan_string_raise_at gas done rest e self' :
  length rest < gas ->
  _scan_string gas (scanner_at done (DQUOTE :: rest)) = Raise e self' ->
  exists x r,
    DQUOTE :: rest = x ++ r /\ self' = scanner_at (done ++ x) r
    /\ error_at done x r e.
Proof.
  intros Hgas Heq. rewrite scan_string_unfold in Heq.
  pose proof (string_body_at gas (done ++ [DQUOTE]) [] rest
                (fst (cursor_after done)) (snd (cursor_after done)) Hgas) as H.
  rewrite Heq in H. destruct H as [(x & r & -> & Hself) He].
  destruct e as [msg l c|]; [|contradiction].
  assert (Hst : self' = scanner_at (done ++ DQUOTE :: x) r).
  { rewrite Hself. apply scanner_at_eq; [|reflexivity].
    now rewrite <- !app_assoc. }
  clear Hself.
  apply string_body_raises in Heq as [(-> & -> & -> & Hp)|(-> & -> & -> & Hp)];
    subst self'; rewrite peek0_at in Hp;
    exists (DQUOTE :: x), r; (split; [reflexivity|]);
    (split; [reflexivity|]); cbn [error_at hd].
  - split; [symmetry; apply surjective_pairing|]. now split.
  - cbn [scanner_at Lexer.linea Lexer.columna].
    split; [symmetry; apply surjective_pairing|]. now split.
Qed.

Lemma scan_token_raise_at gas done rest e self' :
  length rest < gas ->
  scan_token isalpha isdigit gas (scanner_at done rest) = Raise e self' ->
  exists x r,
    rest = x ++ r /\ self' = scanner_at (done ++ x) r /\ error_at done x r e.
Proof.
  intros Hgas. unfold scan_token, bind, this. rewrite peek0_at.
  destruct rest as [|ch rest]; cbn [hd]; [discriminate|].
  simpl in Hgas. rewrite peek1_cons.
  destruct (ceq_spec ch NUL) as [->|Hnul]; [discriminate|].
  destruct (isalpha ch || (ch == UNDERSCORE)) eqn:Ea.
  { rewrite (scan_ident_at isalpha isdigit isalpha_NUL isdigit_NUL)
      by (assumption || lia). discriminate. }
  destruct (isdigit ch) eqn:Ed.
  { rewrite (scan_number_at isdigit isdigit_NUL) by (simpl; lia).
    unfold number_spec. destruct (_ && _); discriminate. }
  destruct (ceq_spec ch DQUOTE) as [->|Hdq].
  { destruct (_scan_string gas _) as [t0 s0|e0 s0|] eqn:Es;
      [discriminate| |discriminate].
    intros H. injection H as <- <-.
    eapply scan_string_raise_at; [|exact Es]. lia. }
  repeat lazymatch goal with
  | |- context [if (ch == ?c) && (hd NUL rest == ?d) then _ else _] =>
      destruct ((ch == c) && (hd NUL rest == d)) eqn:E;
      [ apply andb_prop in E as [E1 E2]; apply ceq_eq in E1, E2; subst ch;
        destruct rest as [|d' rest]; [discriminate|]; cbn [hd] in E2; subst d';
        rewrite !advance_at; discriminate
      | clear E ]
  end.
  rewrite advance_at.
  repeat lazymatch goal with
  | |- context [if ?b then _ else _] => destruct b; [discriminate|]
  end.
  unfold raise. intros H. injection H as <- <-.
  exists [ch], rest. split; [reflexivity|]. split; [reflexivity|].
  cbn [error_at]. split; [symmetry; apply surjective_pairing | reflexivity].
Qed.

Lemma trace_loop_error_at gas :
  forall done rest ps e final,
    length rest < gas ->
    trace_loop isalpha isdigit gas (scanner_at done rest)
    = (ps, Raised e, final) ->
    exists x r,
      rest = concat (map piece_source ps) ++ x ++ r
      /\ final = scanner_at (done ++ concat (map piece_source ps) ++ x) r
      /\ error_at (done ++ concat (map piece_source ps)) x r e.
Proof.
  induction gas as [|gas IH]; intros done rest ps e final Hgas; [lia|].
  cbn [trace_loop].
  pose proof (skip_whitespace_at (S gas) done rest Hgas) as Hs.
  destruct (_skip_whitespace (S gas) (scanner_at done rest))
    as [u self1|e1 self1|]; [| |discriminate].
  - apply skip_outcome_length in Hs as (w & rest1 & -> & -> & Hlen).
    rewrite length_app in Hgas.
    pose proof (scan_token_at isalpha isdigit isalpha_NUL isdigit_NUL
                  (S gas) (done ++ w) rest1 ltac:(lia)) as Ht.
    replace (slice _ _ _) with w
      by (symmetry; cbn [scanner_at Lexer.fuente Lexer.i]; apply slice_at).
    destruct (scan_token isalpha isdigit (S gas) (scanner_at (done ++ w) rest1))
      as [[t [|]] self2|e2 self2|] eqn:Es; [|discriminate| |discriminate].
    + destruct Ht as (x & rest2 & -> & Hx & -> & Hsrc & _).
      assert (Hx' : length x <> 0) by (destruct x; [contradiction|discriminate]).
      destruct (trace_loop isalpha isdigit gas (scanner_at ((done ++ w) ++ x) rest2))
        as [[ps' e'] final'] eqn:El.
      cbv beta iota. intros H. injection H as <- -> <-.
      apply IH in El as (y & r & -> & -> & He);
        [|rewrite !length_app in Hlen; rewrite length_app in Hgas; lia].
      exists y, r. cbn [map concat piece_source]. rewrite Hsrc.
      rewrite <- !app_assoc in *. now split.
    + intros H. injection H as <- <- <-.
      apply scan_token_raise_at in Es as (x & r & -> & -> & He); [|lia].
      exists x, r. cbn [map concat piece_source]. rewrite app_nil_r.
      rewrite <- !app_assoc in *. now split.
  - intros H. injection H as <- <- <-.
    destruct Hs as (w & r & -> & -> & Hhd & -> & Hop).
    exists w, r. cbn [map concat app]. rewrite app_nil_r.
    split; [reflexivity|]. split; [reflexivity|].
    cbn [error_at]. split; [symmetry; apply surjective_pairing|]. now split.
Qed.

(** X11: an error that ends a scan is one of the four lexical errors -
    never the one of a dot without a digit, never a failed assertion - and
    its line and column are fixed by the scan: an unterminated string is
    reported at its opening quote and an unexpected symbol at that symbol,
    both where the text of the tokens and skips before them ends; a newline
    in a string is reported at that newline and an unterminated comment at
    the end of the input or the NUL, both where the cursor is left. *)
Theorem errors_point_into_text (fuente : text) :
  forall ps e final,
    trace isalpha isdigit fuente = (ps, Raised e, final) ->
    run isalpha isdigit fuente = (yielded ps, Raised e, final)
    /\ exists x r,
        fuente = concat (map piece_source ps) ++ x ++ r
        /\ final = scanner_at (concat (map piece_source ps) ++ x) r
        /\ error_at (concat (map piece_source ps)) x r e.
Proof.
  intros ps e final Ht. split.
  - rewrite run_trace, Ht. reflexivity.
  - unfold trace in Ht. rewrite init_scanner_at in Ht.
    apply trace_loop_error_at in Ht; [|lia]. exact Ht.
Qed.

End ErrorPositions.

Lemma errors_point_into_text_witness :
  latin1_isalpha NUL = false /\ latin1_isdigit NUL = false
  /\ trace latin1_isalpha latin1_isdigit
           (DQUOTE :: str "a" ++ DQUOTE :: SPACE :: DQUOTE :: str "b")
     = ([Skipped []; Scanned (mkToken TOKEN.cadena (str "a") 1 1);
         Skipped [SPACE]],
        Raised (LexerError CadenaSinCerrar 1 5),
        scanner_at (DQUOTE :: str "a" ++ DQUOTE :: SPACE :: DQUOTE :: str "b") [])
  /\ run latin1_isalpha latin1_isdigit
         (DQUOTE :: str "a" ++ DQUOTE :: SPACE :: DQUOTE :: str "b")
     = ([mkToken TOKEN.cadena (str "a") 1 1],
        Raised (LexerError CadenaSinCerrar 1 5),
        scanner_at (DQUOTE :: str "a" ++ DQUOTE :: SPACE :: DQUOTE :: str "b") [])
  /\ exists x r,
      DQUOTE :: str "a" ++ DQUOTE :: SPACE :: DQUOTE :: str "b"
      = (DQUOTE :: str "a" ++ [DQUOTE; SPACE]) ++ x ++ r
      /\ scanner_at (DQUOTE :: str "a" ++ DQUOTE :: SPACE :: DQUOTE :: str "b") []
         = scanner_at ((DQUOTE :: str "a" ++ [DQUOTE; SPACE]) ++ x) r
      /\ error_at (DQUOTE :: str "a" ++ [DQUOTE; SPACE]) x r
                  (LexerError CadenaSinCerrar 1 5).
Proof.
  split; [reflexivity|]. split; [reflexivity|]. split; [reflexivity|].
  exact (errors_point_into_text latin1_isalpha latin1_isdigit eq_refl eq_refl
           (DQUOTE :: str "a" ++ DQUOTE :: SPACE :: DQUOTE :: str "b")
           [Skipped []; Scanned (mkToken TOKEN.cadena (str "a") 1 1);
            Skipped [SPACE]]
           (LexerError CadenaSinCerrar 1 5)
           (scanner_at (DQUOTE :: str "a" ++ DQUOTE :: SPACE :: DQUOTE :: str "b") [])
           eq_refl).
Defined.

(** ** Texts without a token *)

Section Blank.

Variable isalpha : char -> bool.
Variable isdigit : char -> bool.

Lemma scan_token_sentinel gas done rest :
  hd NUL rest = NUL ->
  scan_token isalpha isdigit gas (scanner_at done rest)
  = Ok (eof_token done, Break) (scanner_at done rest).
Proof.
  intros H. unfold scan_token, bind, this. rewrite peek0_at, H. reflexivity.
Qed.

Lemma scan_token_break gas self t self' :
  scan_token isalpha isdigit gas self = Ok (t, Break) self' ->
  _peek self 0 = NUL /\ self' = self.
Proof.
  unfold scan_token, bind, this, ret.
  destruct (ceq_spec (_peek self 0) NUL) as [E|_].
  { intros H. injection H as _ <-. now split. }
  destruct (_ || _).
  { destruct (_scan_ident_or_reserved _ _ _ _); discriminate. }
  destruct (isdigit _).
  { destruct (_scan_number _ _ _); discriminate. }
  destruct (_ == DQUOTE).
  { destruct (_scan_string _ _); discriminate. }
  destruct (advance_ok self) as [s1 E1]. destruct (advance_ok s1) as [s2 E2].
  repeat lazymatch goal with
  | |- context [if ?b then _ else _] =>
      destruct b; [rewrite ?E1, ?E2; discriminate|]
  end.
  rewrite E1.
  repeat lazymatch goal with
  | |- context [if ?b then _ else _] => destruct b; [discriminate|]
  end.
  discriminate.
Qed.

Lemma tokens_loop_finished_nonempty gas :
  forall self ts final,
    tokens_loop isalpha isdigit gas self = (ts, Finished, final) -> ts <> [].
Proof.
  destruct gas as [|gas]; intros self ts final; [discriminate|].
  cbn [tokens_loop].
  destruct (next_token isalpha isdigit (S gas) self) as [[t [|]] s1|e s1|];
    try discriminate.
  - destruct (tokens_loop isalpha isdigit gas s1) as [[ts' e'] f'].
    intros H. injection H as <- _ _. discriminate.
  - intros H. injection H as <- _. discriminate.
Qed.

(** X12: a scan yields the end marker alone exactly for a text that is, up
    to its end or to its first NUL, made of whitespace and comments; the
    marker then has the position after them. *)
Theorem only_end_marker_iff_blank (fuente : text) :
  ((exists t, tokens isalpha isdigit fuente = ([t], Finished))
   <-> (exists w rest,
           fuente = w ++ rest /\ skips w rest /\ hd NUL rest = NUL))
  /\ forall w rest,
      skips w rest -> hd NUL rest = NUL ->
      tokens isalpha isdigit (w ++ rest)
      = ([mkToken TOKEN.eof (str "$")
                  (fst (cursor_after w)) (snd (cursor_after w))], Finished).
Proof.
  assert (Hfwd : forall w rest,
             skips w rest -> hd NUL rest = NUL ->
             tokens isalpha isdigit (w ++ rest)
             = ([mkToken TOKEN.eof (str "$")
                         (fst (cursor_after w)) (snd (cursor_after w))],
                Finished)).
  { intros w rest Hs Hhd. unfold tokens, run. rewrite init_scanner_at.
    cbn [tokens_loop]. unfold next_token, bind.
    rewrite (skip_whitespace_skips w rest Hs)
      by (rewrite length_app; lia).
    now rewrite scan_token_sentinel. }
  split; [|exact Hfwd]. split.
  - intros [t Ht]. unfold tokens, run in Ht. rewrite init_scanner_at in Ht.
    cbn [tokens_loop] in Ht. unfold next_token, bind in Ht.
    destruct (_skip_whitespace _ _) as [u s1|e s1|] eqn:Es;
      [|discriminate..].
    apply skip_whitespace_skipped in Es as (w & rest & -> & Hs & ->); [|lia].
    exists w, rest. split; [reflexivity|]. split; [assumption|].
    destruct (scan_token _ _ _ _) as [[t' [|]] s2|e s2|] eqn:Et;
      [| |discriminate..].
    + destruct (tokens_loop isalpha isdigit _ s2) as [[ts e] f] eqn:El.
      cbn [fst] in Ht. injection Ht as _ Hts ->.
      apply tokens_loop_finished_nonempty in El. now subst ts.
    + apply scan_token_break in Et as [Hp _]. now rewrite peek0_at in Hp.
  - intros (w & rest & -> & Hs & Hhd). eexists. now apply Hfwd.
Qed.

End Blank.

Section Coverage.

Variable isalpha : char -> bool.
Variable isdigit : char -> bool.

(** In Python, ["\0".isalpha()] and ["\0".isdigit()] are [False]. *)
Hypothesis isalpha_NUL : isalpha NUL = false.
Hypothesis isdigit_NUL : isdigit NUL = false.

(** X13: a scan that finishes on a text without a NUL accounts for every
    character of it: the skipped text and the source text of the tokens, in
    order, are the whole text. *)
Theorem finished_scan_covers_source (fuente : text) :
  ~ In NUL fuente ->
  snd (tokens isalpha isdigit fuente) = Finished ->
  concat (map piece_source (fst (fst (trace isalpha isdigit fuente)))) = fuente.
Proof.
  intros Hnul. unfold tokens. rewrite run_trace.
  destruct (trace_run isalpha isdigit isalpha_NUL isdigit_NUL fuente)
    as (ps & e & final & -> & Hrun).
  cbn [fst snd]. intros ->.
  apply finished_run in Hrun as (rest' & Hf & _ & Hhd & _).
  rewrite (sentinel_without_NUL rest' Hhd) in Hf
    by (intros H; apply Hnul; rewrite Hf; apply in_or_app; now right).
  now rewrite app_nil_r in Hf.
Qed.

End Coverage.

Lemma finished_scan_covers_source_witness :
  latin1_isalpha NUL = false /\ latin1_isdigit NUL = false
  /\ ~ In NUL (DQUOTE :: str "a b" ++ DQUOTE :: str " // c")
  /\ snd (tokens latin1_isalpha latin1_isdigit
                 (DQUOTE :: str "a b" ++ DQUOTE :: str " // c")) = Finished
  /\ concat (map piece_source
               (fst (fst (trace latin1_isalpha latin1_isdigit
                                (DQUOTE :: str "a b" ++ DQUOTE :: str " // c")))))
     = DQUOTE :: str "a b" ++ DQUOTE :: str " // c".
Proof.
  assert (Hn : ~ In NUL (DQUOTE :: str "a b" ++ DQUOTE :: str " // c"))
    by (cbn; intuition discriminate).
  split; [reflexivity|]. split; [reflexivity|]. split; [exact Hn|].
  split; [reflexivity|].
  exact (finished_scan_covers_source latin1_isalpha latin1_isdigit
           eq_refl eq_refl (DQUOTE :: str "a b" ++ DQUOTE :: str " // c")
           Hn eq_refl).
Defined.

(** ** _match *)

(** X14: [_match] consumes the current character exactly when it is the
    expected one and then answers [True]; otherwise it answers [False] and
    leaves the scanner as it was.  At the end of the input it matches the
    sentinel and moves the position past the text. *)
Theorem match_consumes_expected (done rest : text) (expected : char) :
  (forall rest', rest = expected :: rest' ->
      _match expected (scanner_at done rest)
      = Ok true (scanner_at (done ++ [expected]) rest'))
  /\ (hd NUL rest <> expected ->
      _match expected (scanner_at done rest) = Ok false (scanner_at done rest))
  /\ (rest = [] -> expected = NUL ->
      exists self',
        _match expected (scanner_at done rest) = Ok true self'
        /\ Lexer.i self' = Lexer.n self' + 1).
Proof.
  unfold _match, bind, this, ret. rewrite peek0_at. split; [|split].
  - intros rest' ->. cbn [hd]. now rewrite ceq_refl, advance_at.
  - intros H. apply ceq_neq in H. now rewrite H.
  - intros -> ->. cbn [hd]. rewrite ceq_refl.
    destruct (advance_ok (scanner_at done [])) as [s1 E]. rewrite E.
    exists s1. split; [reflexivity|].
    unfold _advance in E. rewrite peek0_nil in E. cbn in E.
    injection E as <-. unfold Lexer.n. cbn. now rewrite app_nil_r.
Qed.

(** ** The text of a lexical error *)

Lemma read_decimal_uint d :
  forall acc x r,
    is_decimal_digit x = false ->
    read_decimal acc (uint_text d ++ x :: r)
    = (Nat.of_uint_acc d acc, x :: r).
Proof.
  induction d; intros acc x r Hx; cbn [uint_text app read_decimal].
  1: now rewrite Hx.
  all: change (is_decimal_digit _) with true at 1; cbv iota;
    rewrite IHd by assumption; cbn [Nat.of_uint_acc]; do 2 f_equal;
    rewrite Nat.tail_mul_spec;
    match goal with |- context [N.to_nat ?k] =>
      let v := eval vm_compute in (N.to_nat k) in change (N.to_nat k) with v
    end; lia.
Qed.

Lemma read_decimal_decimal n x r :
  is_decimal_digit x = false ->
  read_decimal 0 (decimal n ++ x :: r) = (n, x :: r).
Proof.
  intros Hx. unfold decimal. rewrite read_decimal_uint by assumption.
  change (Nat.of_uint_acc (Nat.to_uint n) 0) with (Nat.of_uint (Nat.to_uint n)).
  now rewrite Unsigned.of_to.
Qed.

Lemma read_position_error_text m l c :
  read_position (error_text m l c) = Some (l, c).
Proof.
  unfold error_text, read_position.
  change (str "[L" ++ ?s) with (91%N :: 76%N :: s). cbv iota.
  change (str ":C" ++ ?s) with (58%N :: 67%N :: s).
  rewrite read_decimal_decimal by reflexivity.
  change (str "] " ++ ?s) with (93%N :: 32%N :: s).
  now rewrite read_decimal_decimal by reflexivity.
Qed.

Lemma message_text_inj m m' : message_text m = message_text m' -> m = m'.
Proof.
  destruct m, m'; cbn; intros H; try discriminate; try reflexivity.
  now injection H as ->.
Qed.

(** X15: the text of a lexical error, [[L<line>:C<column>] <message>] with
    the numbers in decimal, determines the error: two errors with the same
    text have the same message, line and column. *)
Theorem error_text_determines_error (m : Message) (l c : nat) :
  (forall m' l' c',
      error_text m l c = error_text m' l' c' -> m = m' /\ l = l' /\ c = c')
  /\ error_text CadenaSinCerrar 12 5 = str "[L12:C5] Cadena sin cerrar".
Proof.
  split; [|reflexivity].
  intros m' l' c' H.
  assert (Hp : Some (l, c) = Some (l', c')).
  { rewrite <- (read_position_error_text m l c),
            <- (read_position_error_text m' l' c'). now rewrite H. }
  injection Hp as <- <-.
  split; [|now split].
  unfold error_text in H.
  apply app_inv_head in H. apply app_inv_head in H.
  apply app_inv_head in H. apply app_inv_head in H.
  apply app_inv_head in H. now apply message_text_inj.
Qed.

(** * The sentinel inside the text *)

Lemma skip_block_comment_runs_out :
  forall body gas done tail,
    unclosed body = true ->
    hd NUL tail = NUL ->
    length body < gas ->
    skip_block_comment gas (scanner_at done (body ++ tail))
    = Raise (LexerError ComentarioBloqueSinCerrar
                        (fst (cursor_after (done ++ body)))
                        (snd (cursor_after (done ++ body))))
            (scanner_at (done ++ body) tail).
Proof.
  induction body as [|c body IH]; intros gas done tail Hu Hhd Hgas;
    (destruct gas as [|gas]; [simpl in Hgas; lia|]);
    cbn [skip_block_comment app]; unfold bind, this, raise.
  - rewrite peek0_at, Hhd. cbn. now rewrite app_nil_r.
  - cbn [unclosed] in Hu. apply andb_prop in Hu as [Hu Hrest].
    apply andb_prop in Hu as [H1 H2]. apply negb_true_iff in H1, H2.
    rewrite peek0_cons, peek1_cons, H1.
    replace ((c == STAR) && (hd NUL (body ++ tail) == SLASH)) with false.
    + rewrite advance_at, IH by (assumption || (simpl in Hgas; lia)).
      now rewrite <- !app_assoc.
    + symmetry. destruct body as [|b body]; cbn [hd app] in *; [|assumption].
      rewrite Hhd. now rewrite andb_false_r.
Qed.

Lemma skip_whitespace_runs_out gas done body tail :
  unclosed body = true ->
  hd NUL tail = NUL ->
  length body + 2 < gas ->
  _skip_whitespace gas (scanner_at done (SLASH :: STAR :: body ++ tail))
  = Raise (LexerError ComentarioBloqueSinCerrar
                      (fst (cursor_after (done ++ SLASH :: STAR :: body)))
                      (snd (cursor_after (done ++ SLASH :: STAR :: body))))
          (scanner_at (done ++ SLASH :: STAR :: body) tail).
Proof.
  intros Hu Hhd Hgas. destruct gas as [|gas]; [lia|].
  cbn [_skip_whitespace]. unfold bind, this.
  rewrite peek0_cons, peek1_cons. cbn [hd].
  cbn [ceq N.eqb SLASH SPACE TAB CR LF STAR Pos.eqb orb andb].
  rewrite !advance_at.
  rewrite skip_block_comment_runs_out by (assumption || lia).
  now rewrite <- !app_assoc.
Qed.

Section SentinelInText.

Variable isalpha : char -> bool.
Variable isdigit : char -> bool.

(** In Python, ["\0".isalpha()] and ["\0".isdigit()] are [False]. *)
Hypothesis isalpha_NUL : isalpha NUL = false.
Hypothesis isdigit_NUL : isdigit NUL = false.


End SentinelInText.


